(** * Audio-Visual-TAD: target assignment, losses and decoding of [PtTransformer]

    Shallow embedding of the parts of [src/libs/modeling/meta_archs.py] and
    [src/libs/modeling/losses.py] that compute the training targets, the
    per-step loss normalizer and the inference-time index decomposition.

    Tensor values in feature-grid units are Python floats; they are modelled
    as exact rationals [Q] (the concrete inputs used below are small integers
    and halves, on which float arithmetic is exact).  The Gaussian
    confidence transforms are modelled over [R] in module [Decode]. *)

From Stdlib Require Import QArith Qminmax Qabs ZArith List Bool Lia Sorted.
From Stdlib Require Import Reals Lra Qreals.
From Stdlib Require Lqa.
Import ListNotations.

(** Python-level failures of the modelled code. *)
Inductive PyError :=
| ValueError_unpack          (* [a, b, c, d, e, f = f(...)] on a 3-tuple *)
| UnboundLocalError_actionness_loss. (* [actionness_loss] read before assignment *)

(** Strict comparison of floats as a boolean ([a < b]). *)
Definition Qltb (a b : Q) : bool := negb (Qle_bool b a).

(** Membership in the closed unit interval. *)
Definition unit_interval (x : Q) : Prop := 0 <= x <= 1.

Module Assigner.

(** A row of [concat_points]: [(t, reg_min, reg_max, stride)]. *)
Record Point := mkPoint {
  pt_t : Q; pt_reg_min : Q; pt_reg_max : Q; pt_stride : Q }.

(** [train_cfg['center_sample']] is asserted to be ['radius'] or ['none']. *)
Inductive CenterSample := CS_radius | CS_none.

Record Cfg := mkCfg {
  num_classes_verb : Z;
  num_classes_noun : Z;
  train_center_sample : CenterSample;
  train_center_sample_radius : Q }.

(** A ground-truth segment [(start, end)]. *)
Definition Segment := (Q * Q)%type.

(** [inside_gt_seg_mask] for one (point, segment) pair. *)
Definition inside_gt_seg (cfg : Cfg) (p : Point) (g : Segment) : bool :=
  let '(s, e) := g in
  let left := pt_t p - s in
  let right := e - pt_t p in
  match train_center_sample cfg with
  | CS_radius =>
      let center_pts := (1#2) * (s + e) in
      let t_mins := center_pts - pt_stride p * train_center_sample_radius cfg in
      let t_maxs := center_pts + pt_stride p * train_center_sample_radius cfg in
      let cb_dist_left := pt_t p - Qmax t_mins s in
      let cb_dist_right := Qmin t_maxs e - pt_t p in
      Qltb 0 (Qmin cb_dist_left cb_dist_right)
  | CS_none => Qltb 0 (Qmin left right)
  end.

(** [inside_regress_range] for one (point, segment) pair. *)
Definition inside_regress_range (p : Point) (g : Segment) : bool :=
  let '(s, e) := g in
  let max_regress_distance := Qmax (pt_t p - s) (e - pt_t p) in
  Qle_bool (pt_reg_min p) max_regress_distance &&
  Qle_bool max_regress_distance (pt_reg_max p).

(** An entry of [lens] after the two [masked_fill_] calls;
    [None] stands for [float('inf')]. *)
Definition masked_len (cfg : Cfg) (p : Point) (g : Segment) : option Q :=
  if inside_gt_seg cfg p g && inside_regress_range p g
  then Some (snd g - fst g) else None.

(** [<] on floats extended with [inf] ([None]). *)
Definition olt (a b : option Q) : bool :=
  match a, b with
  | Some x, Some y => Qltb x y
  | Some _, None => true
  | None, _ => false
  end.

(** [lens.min(dim=1)] on one row: the minimum and the index of its first
    occurrence. *)
Fixpoint argmin_from (i : nat) (best : option Q) (bi : nat)
    (l : list (option Q)) : option Q * nat :=
  match l with
  | [] => (best, bi)
  | v :: l' =>
      if olt v best then argmin_from (S i) v i l'
      else argmin_from (S i) best bi l'
  end.

Definition torch_min (l : list (option Q)) : option Q * nat :=
  match l with
  | [] => (None, 0%nat)
  | v :: l' => argmin_from 1 v 0 l'
  end.

(** The assignment of one point: verb target, noun target and the
    stride-normalised regression target [reg_targets[i, min_len_inds[i]]]. *)
Definition assign_point (cfg : Cfg) (gts : list Segment) (lv ln : list Z)
    (p : Point) : Z * Z * (Q * Q) :=
  let '(min_len, k) := torch_min (map (masked_len cfg p) gts) in
  let cv := match min_len with
            | None => num_classes_verb cfg
            | Some _ => nth k lv 0%Z end in
  let cn := match min_len with
            | None => num_classes_noun cfg
            | Some _ => nth k ln 0%Z end in
  let '(s, e) := nth k gts (0, 0) in
  (cv, cn, ((pt_t p - s) / pt_stride p, (e - pt_t p) / pt_stride p)).

Definition assign (cfg : Cfg) (pts : list Point) (gts : list Segment)
    (lv ln : list Z) : list Z * list Z * list (Q * Q) :=
  let r := map (assign_point cfg gts lv ln) pts in
  (map (fun x => fst (fst x)) r, map (fun x => snd (fst x)) r, map snd r).

(** [ioa_with_anchors] on one anchor and one box. *)
Definition ioa_with_anchors (anchors_min anchors_max box_min box_max : Q) : Q :=
  let len_anchors := anchors_max - anchors_min in
  let int_xmin := Qmax anchors_min box_min in
  let int_xmax := Qmin anchors_max box_max in
  let inter_len := Qmax (int_xmax - int_xmin) 0 in
  inter_len / len_anchors.

(** [np.max] of a non-empty array (it is only called on arrays with one entry
    per ground truth, after the [num_gts == 0] early return). *)
Definition np_max (l : list Q) : Q :=
  match l with
  | [] => 0
  | x :: r => fold_left Qmax r x
  end.

Definition num_levels : list nat := [2304; 1152; 576; 288; 144; 72]%nat.
Definition level_ratio : list Z := [1; 2; 4; 8; 16; 32]%Z.

Definition anchors (n : nat) : list Q := map (fun x => inject_Z (Z.of_nat x)) (seq 0 n).

Section DenseLabels.

(** [d |-> exp(-d^2 / (2 * cen_gau_sigma^2))], the Gaussian centerness decay. *)
Variable cen_gauss : Q -> Q.

(** [match_score_action]: floor 0.1, overwritten by each ground truth that
    covers the anchor, in ground-truth order (last write wins).
    ([anchor_xmin_cen]/[anchor_xmax_cen] are computed by the source but never
    read, so they are not modelled.) *)
Definition action_score (xs : list (Q * Q)) (ii : Q) : Q :=
  fold_left (fun acc '(xmin, xmax) =>
      if Qle_bool xmin ii && Qle_bool ii xmax
      then cen_gauss (Qabs (ii - (xmin + xmax) / 2)) else acc)
    xs (1#10).

(** The three dense label arrays of one resolution level. *)
Definition level_labels (gts : list Segment) (n : nat) (ratio : Z)
    : list Q * list Q * list Q :=
  let xs := map (fun g => (fst g / inject_Z ratio, snd g / inject_Z ratio)) gts in
  let gt_len_small := map (fun x => Qmax 1 ((1#10) * (snd x - fst x))) xs in
  let gt_start_bboxs :=
    map (fun '(x, sm) => (fst x - sm / 2, fst x + sm / 2)) (combine xs gt_len_small) in
  let gt_end_bboxs :=
    map (fun '(x, sm) => (snd x - sm / 2, snd x + sm / 2)) (combine xs gt_len_small) in
  let score bbs (a : Q) :=
    np_max (map (fun b => ioa_with_anchors a (a + 1) (fst b) (snd b)) bbs) in
  let xa := anchors n in
  (map (action_score xs) xa, map (score gt_start_bboxs) xa, map (score gt_end_bboxs) xa).

(** Concatenation over the six fixed levels:
    [(action_gt, starting_gt, ending_gt)]. *)
Definition boundary_labels (gts : list Segment) : list Q * list Q * list Q :=
  fold_left (fun '(a, s, e) '(n, r) =>
      let '(a', s', e') := level_labels gts n r in (a ++ a', s ++ s', e ++ e'))
    (combine num_levels level_ratio) ([], [], []).

(** The return value of [label_points_single_video]: the early return of the
    [num_gts == 0] case is a 3-tuple, the general case a 6-tuple. *)
Inductive LPResult :=
| LP3 (cls_v cls_n : list Z) (reg : list (Q * Q))
| LP6 (cls_v cls_n : list Z) (reg : list (Q * Q)) (start_gt end_gt action_gt : list Q).

Definition label_points_single_video (cfg : Cfg) (concat_points : list Point)
    (gt_segment : list Segment) (gt_label_v gt_label_n : list Z) : LPResult :=
  let num_pts := length concat_points in
  match gt_segment with
  | [] =>
      LP3 (repeat (num_classes_verb cfg) num_pts)
          (repeat (num_classes_noun cfg) num_pts)
          (repeat (0, 0) num_pts)
  | _ =>
      let '(cv, cn, reg) := assign cfg concat_points gt_segment gt_label_v gt_label_n in
      let '(action_gt, starting_gt, ending_gt) := boundary_labels gt_segment in
      LP6 cv cn reg starting_gt ending_gt action_gt
  end.

(** One video's ground truth: segments, verb labels, noun labels. *)
Definition Video := (list Segment * list Z * list Z)%type.

Definition Targets :=
  (list (list Z) * list (list Z) * list (list (Q * Q))
   * list (list Q) * list (list Q) * list (list Q))%type.

(** [label_points]: concatenate the levels' points and unpack six values per
    video; unpacking the 3-tuple of the early return raises [ValueError]. *)
Definition label_points (cfg : Cfg) (points : list (list Point))
    (videos : list Video) : PyError + Targets :=
  let concat_points := concat points in
  fold_left (fun acc '(gs, lv, ln) =>
      match acc with
      | inl err => inl err
      | inr (a, b, c, d, e, f) =>
          match label_points_single_video cfg concat_points gs lv ln with
          | LP3 _ _ _ => inl ValueError_unpack
          | LP6 cv cn reg st en act =>
              inr (a ++ [cv], b ++ [cn], c ++ [reg], d ++ [st], e ++ [en], f ++ [act])
          end
      end) videos (inr ([], [], [], [], [], [])).

End DenseLabels.

End Assigner.

Module Losses.

(** The part of [PtTransformer.losses] and of the training branch of
    [PtTransformer.forward] that the normalizer depends on.  Network outputs
    are opaque ([Logit], [VisPred]); [sigmoid_focal_loss] (reduction='sum')
    and [ctr_giou_loss_1d] (reduction='sum', returning the regression and
    actionness losses) are the functions of [losses.py], taken as given. *)
Section Losses.

Variable Logit VisPred : Type.
Variable sigmoid_focal_loss : list Logit -> list (list Q) -> Q.
Variable ctr_giou_loss_1d :
  list VisPred -> list (Q * Q) -> list Q -> list Q -> list Q -> Q * Q.
(** [pred_offsets.sum()] *)
Variable offsets_sum : list VisPred -> Q.

Record Hyper := mkHyper {
  num_classes_verb : Z; num_classes_noun : Z;
  train_label_smoothing : Q;
  verb_cls_weight : Q; noun_cls_weight : Q;
  loss_a_weight : Q; loss_act_weight : Q }.

(** [self.loss_normalizer_momentum = 0.9] *)
Definition loss_normalizer_momentum : Q := 9#10.

(** [x[mask]] on a flattened (B * FT) tensor. *)
Definition select {A} (mask : list bool) (l : list A) : list A :=
  map snd (filter fst (combine mask l)).

(** [F.one_hot(c, num_classes=C+1)[:, :-1]] followed by label smoothing. *)
Definition one_hot_smooth (C : Z) (ls : Q) (c : Z) : list Q :=
  map (fun k => (if Z.eqb c k then 1 else 0) * (1 - ls) + ls / inject_Z (C + 1))
    (map Z.of_nat (seq 0 (Z.to_nat C))).

(** The targets shared by both streams, stacked over the batch. *)
Record Targets := mkTargets {
  gt_cls_v : list Z; gt_cls_n : list Z; gt_offsets : list (Q * Q);
  gt_start : list Q; gt_end : list Q; gt_action : list Q }.

(** One stream's outputs: validity mask, verb and noun logits, and for the
    visual stream ([is_audio = False]) the offset/confidence/actionness
    predictions. *)
Record Stream := mkStream {
  fpn_mask : list bool; out_cls_v : list Logit; out_cls_n : list Logit;
  out_vis : option (list VisPred) }.

Inductive LossDict :=
| VisualLosses (cls_loss_v cls_loss_n reg_loss act_loss : Q)
| AudioLosses (cls_loss_v cls_loss_n : Q).

Definition pos_mask (h : Hyper) (tg : Targets) (valid : list bool) : list bool :=
  map (fun '(cv, cn, v) =>
        Z.leb 0 cn && negb (Z.eqb cn (num_classes_noun h)) &&
        Z.leb 0 cv && negb (Z.eqb cv (num_classes_verb h)) && v)
    (combine (combine (gt_cls_v tg) (gt_cls_n tg)) valid).

Definition num_pos (h : Hyper) (tg : Targets) (valid : list bool) : nat :=
  length (filter (fun b => b) (pos_mask h tg valid)).

(** The EMA update rule of [self.loss_normalizer]. *)
Definition ema_update (norm : Q) (np : nat) : Q :=
  loss_normalizer_momentum * norm
  + (1 - loss_normalizer_momentum) * inject_Z (Z.of_nat (Nat.max np 1)).

(** One classification term: focal loss (sum) over the valid points against
    the smoothed one-hot targets, divided by a fixed [divisor] ([250] for
    verbs, [500] for nouns; the EMA normalizer is commented out there), times
    the taxonomy's weight. *)
Definition cls_loss (C : Z) (ls divisor weight : Q) (valid : list bool)
    (logits : list Logit) (targets : list Z) : Q :=
  weight * (sigmoid_focal_loss (select valid logits)
              (map (one_hot_smooth C ls) (select valid targets)) / divisor).

(** [PtTransformer.losses]: takes and returns [self.loss_normalizer]; the
    update happens before any loss term, so it also persists when the call
    raises. *)
Definition losses (h : Hyper) (norm : Q) (st : Stream) (tg : Targets)
    : Q * (PyError + LossDict) :=
  let valid := fpn_mask st in
  let pm := pos_mask h tg valid in
  let np := num_pos h tg valid in
  let norm' := ema_update norm np in
  let cls_loss_v :=
    cls_loss (num_classes_verb h) (train_label_smoothing h) 250 (verb_cls_weight h)
      valid (out_cls_v st) (gt_cls_v tg) in
  let cls_loss_n :=
    cls_loss (num_classes_noun h) (train_label_smoothing h) 500 (noun_cls_weight h)
      valid (out_cls_n st) (gt_cls_n tg) in
  match out_vis st with
  | None => (norm', inr (AudioLosses cls_loss_v cls_loss_n))
  | Some vis =>
      let pred := select pm vis in
      if Nat.eqb np 0 then
        (* [reg_loss = 0 * pred_offsets.sum()]; [actionness_loss] is only
           assigned in the [else] branch, and the [return] reads it *)
        let _reg_loss := 0 * offsets_sum pred in
        (norm', inl UnboundLocalError_actionness_loss)
      else
        let '(reg, act) :=
          ctr_giou_loss_1d pred (select pm (gt_offsets tg)) (select pm (gt_start tg))
            (select pm (gt_end tg)) (select pm (gt_action tg)) in
        (norm', inr (VisualLosses cls_loss_v cls_loss_n (reg / norm') act))
  end.

(** The final loss dictionary of [forward]: [(cls_v, cls_n, reg_visual, action,
    final_loss)]. *)
Definition FinalLosses := (Q * Q * Q * Q * Q)%type.

(** The training branch of [PtTransformer.forward] after [label_points]: the
    visual-stream call of [losses], then the audio-stream call. *)
Definition forward_train (h : Hyper) (norm : Q) (vis aud : Stream) (tg : Targets)
    : Q * (PyError + FinalLosses) :=
  let '(n1, rv) := losses h norm vis tg in
  match rv with
  | inl e => (n1, inl e)
  | inr lv =>
      let '(n2, ra) := losses h n1 aud tg in
      match ra with
      | inl e => (n2, inl e)
      | inr la =>
          match lv, la with
          | VisualLosses cv cn reg act, AudioLosses cva cna =>
              let cls_v := cv + loss_a_weight h * cva in
              let cls_n := cn + loss_a_weight h * cna in
              (n2, inr (cls_v, cls_n, reg, act,
                        cls_v + cls_n + reg + loss_act_weight h * act))
          | _, _ => (n2, inl ValueError_unpack) (* not reached: streams fixed *)
          end
      end
  end.

End Losses.

Arguments Stream : clear implicits.
Arguments mkStream {Logit VisPred}.
Arguments fpn_mask {Logit VisPred}.
Arguments out_cls_v {Logit VisPred}.
Arguments out_cls_n {Logit VisPred}.
Arguments out_vis {Logit VisPred}.
Arguments cls_loss {Logit}.
Arguments losses {Logit VisPred}.
Arguments forward_train {Logit VisPred}.

End Losses.

Module GIoU.

(** [eps = 1e-8] in [ctr_giou_loss_1d]. *)
Definition eps : Q := 1 # 100000000.

(** [t.clamp(min=eps)] *)
Definition clamp_min (t m : Q) : Q := Qmax t m.

(** One entry of [loss_offset] of [ctr_giou_loss_1d]: input offsets
    [(lp, rp)], target offsets [(lg, rg)]. *)
Definition loss_offset (input target : Q * Q) : Q :=
  let '(lp, rp) := input in
  let '(lg, rg) := target in
  let lkis := Qmin lp lg in
  let rkis := Qmin rp rg in
  let intsctk := rkis + lkis in
  let unionk := (lp + rp) + (lg + rg) - intsctk in
  let iouk := intsctk / clamp_min unionk eps in
  let lc := Qmax lp lg in
  let rc := Qmax rp rg in
  let len_c := lc + rc in
  let miouk := iouk - ((len_c - unionk) / clamp_min len_c eps) in
  1 - miouk.

End GIoU.

Module Decode.

(** ** Candidate index decomposition in [inference_single_video] *)

Definition verb_topk : nat := 11.
Definition noun_topk : nat := 33.

(** [torch.mul(noun.unsqueeze(-1), verb.unsqueeze(1))] for one point, then
    row-major [flatten]: entry [n * verb_topk + v] is [noun[n] * verb[v]]. *)
Definition outer_block (noun verb : list Q) : list Q :=
  concat (map (fun ns => map (fun vs => ns * vs) verb) noun).

(** [pred_prob = mul_cls_score.flatten()] over all points of the level. *)
Definition flat_scores (noun_scores verb_scores : list (list Q)) : list Q :=
  concat (map (fun '(ns, vs) => outer_block ns vs) (combine noun_scores verb_scores)).

(** [pt_idxs], [cls_noun_idxs1], [cls_verb_idxs1] for one flat index. *)
Definition decompose (idx : nat) : nat * nat * nat :=
  let pt_idx := (idx / (verb_topk * noun_topk))%nat in
  let dx_loc := (idx mod (verb_topk * noun_topk))%nat in
  (pt_idx, (dx_loc / verb_topk)%nat, (dx_loc mod verb_topk)%nat).

(** [t[i, j]] on a list of rows. *)
Definition at2 {A} (d : A) (t : list (list A)) (i j : nat) : A := nth j (nth i t []) d.

(** ** Boundary-confidence evidence *)

Local Open Scope R_scope.

Definition sigmoid (x : R) : R := / (1 + exp (- x)).

(** Python's [int] on a float: truncation toward zero. *)
Definition py_int (r : R) : Z :=
  if Rle_dec 0 r then Int_part r else (- Int_part (- r))%Z.

(** [conf[min(len(conf)-1, max(0, int(x)))]] *)
Definition clamp_index (len : nat) (x : R) : nat :=
  Z.to_nat (Z.min (Z.of_nat len - 1) (Z.max 0 (py_int x))).

(** *** binary32 arithmetic

    The tensors of [inference_single_video] and [ctr_giou_loss_1d] are
    float32.  The finite binary32 values are [m * 2^(e - 149)] with
    [|m| < 2^24] and [0 <= e <= 253] (exponents -149, the subnormals, up to
    104). *)
Definition is_f32 (v : R) : Prop :=
  exists m e : Z, (Z.abs m < 2 ^ 24)%Z /\ (0 <= e <= 253)%Z /\
    v = IZR (m * 2 ^ e) / IZR (2 ^ 149).

(** Round-to-nearest: [r] is a binary32 value no farther from the exact
    result [x] than any other binary32 value (ties either way; overflow to
    infinity is not modelled). *)
Definition round32 (x r : R) : Prop :=
  is_f32 r /\ forall f, is_f32 f -> Rabs (r - x) <= Rabs (f - x).

(** [torch.exp(torch.div(-torch.square(c), 2*sigma*sigma))] on a float32
    entry [c]: the scalar [2*sigma*sigma] is converted to binary32, and the
    square, the division and [exp] each return the binary32 value nearest
    their exact result. *)
Definition gauss32 (sigma c g : R) : Prop :=
  exists den sq q,
    round32 (2 * sigma * sigma) den /\ round32 (c * c) sq /\
    round32 (- sq / den) q /\ round32 (exp q) g.

(** [input_conf.sigmoid()], rounded to binary32. *)
Definition conf32 (sigma c s : R) : Prop :=
  exists g, gauss32 sigma c g /\ round32 (sigmoid g) s.

(** [torch.cat((v, torch.zeros(len(pts_i) - len(v))), 0)] when
    [len(v) < len(pts_i)]. *)
Definition pad_zeros (num_pts : nat) (v : list R) : list R :=
  if (length v <? num_pts)%nat then v ++ repeat 0 (num_pts - length v) else v.

(** [gt_val_s_i] / [gt_val_e_i] and their zero padding up to [len(pts_i)]:
    [conf] is [conf_s] / [conf_e]; for each point [x] the float32 value
    [x - offsets_i[x][0]] ([sign = -1]) or [x + offsets_i[x][1]]
    ([sign = 1]) is computed with [x] converted to binary32 and the sum
    rounded, then [int] and the clamp pick the entry of [conf]. *)
Definition boundary_values32 (sigma : R) (out_conf offs : list R) (sign : R)
    (num_pts : nat) (vals : list R) : Prop :=
  exists conf pos,
    Forall2 (conf32 sigma) out_conf conf /\
    Forall2 (fun x p => exists xf, round32 (INR x) xf /\ round32 (xf + sign * nth x offs 0) p)
      (seq 0 (length conf)) pos /\
    vals = pad_zeros num_pts (map (fun p => nth (clamp_index (length conf) p) conf 0) pos).

(** The Python float [0.3]: the binary64 value nearest [3/10],
    [5404319552844595 * 2^-54]. *)
Definition py_0_3 : R := 5404319552844595 / 18014398509481984.

(** The binary32 value [10066330 * 2^-25] (= 0.300000011920928955078125). *)
Definition f32_0_3 : R := IZR 10066330 / IZR (2 ^ 25).

(** [0.3*(gt_val_s_i+gt_val_e_i)] for one point: the float32 sum, then the
    product with the scalar [0.3] converted to binary32. *)
Definition evidence32 (a b v : R) : Prop :=
  exists k t, round32 py_0_3 k /\ round32 (a + b) t /\ round32 (k * t) v.

(** The evidence added to every verb and noun logit of the level. *)
Definition boundary_evidence32 (sigma : R) (conf_s conf_e off_l off_r : list R)
    (num_pts : nat) (ev : list R) : Prop :=
  exists vs ve,
    boundary_values32 sigma conf_s off_l (-1) num_pts vs /\
    boundary_values32 sigma conf_e off_r 1 num_pts ve /\
    Forall2 (fun ab v => evidence32 (fst ab) (snd ab) v) (combine vs ve) ev.

End Decode.

(** * Further parts of [meta_archs.py] and [losses.py] *)

(** ** The full [ctr_giou_loss_1d] (reduction='sum', as [losses] calls it) *)

Module GIoULoss.
Import GIoU.

(** [miouk] of [ctr_giou_loss_1d] for one (input, target) pair of offsets;
    [loss_offset = 1.0 - miouk]. *)
Definition miouk (input target : Q * Q) : Q :=
  let '(lp, rp) := input in
  let '(lg, rg) := target in
  let lkis := Qmin lp lg in
  let rkis := Qmin rp rg in
  let intsctk := rkis + lkis in
  let unionk := (lp + rp) + (lg + rg) - intsctk in
  let iouk := intsctk / clamp_min unionk eps in
  let lc := Qmax lp lg in
  let rc := Qmax rp rg in
  let len_c := lc + rc in
  iouk - ((len_c - unionk) / clamp_min len_c eps).

Definition qsum (l : list Q) : Q := fold_right Qplus 0 l.

(** The two [assert]s at the top of [ctr_giou_loss_1d]. *)
Inductive AssertionError := AssertionError_pred_offsets | AssertionError_gt_offsets.

(** [(offsets >= 0.0).all()] *)
Definition offsets_nonneg (o : list (Q * Q)) : bool :=
  forallb (fun '(l, r) => Qle_bool 0 l && Qle_bool 0 r) o.

(** The fields of [args] the function reads. *)
Record GArgs := mkGArgs { gau_sigma : Q; sigma1 : Q; loss_weight_boundary_conf : Q }.

Section CtrGIoU.

(** [c |-> torch.exp(torch.div(-torch.square(c), 2*sigma2*sigma2))] *)
Variable conf_transform : Q -> Q -> Q.
(** [torch.sigmoid] *)
Variable sigmoid : Q -> Q.

(** [ctr_giou_loss_1d(args, vid_idx, input_offsets, input_conf,
    input_actionness, target_offsets, target_start, target_end,
    target_action, reduction='sum')], returning [(loss, loss_action)].
    [input_actionness] has shape [(N, 1)], so [target_action - input_actionness]
    broadcasts to [(N, N)] (entry [i, j] is [target_action[j] - a_i]) before
    the product with [iou_mask] (indexed by [j]) and the mean.  ([torch.mean]
    of an empty tensor is [nan]; [losses] only calls the function with
    [num_pos > 0].) *)
Definition ctr_giou_loss_1d (args : GArgs) (input_offsets input_conf : list (Q * Q))
    (input_actionness : list Q) (target_offsets : list (Q * Q))
    (target_start target_end target_action : list Q) : AssertionError + (Q * Q) :=
  if negb (offsets_nonneg input_offsets) then inl AssertionError_pred_offsets
  else if negb (offsets_nonneg target_offsets) then inl AssertionError_gt_offsets
  else
    let miou := map (fun '(i, t) => miouk i t) (combine input_offsets target_offsets) in
    let loss_offset := qsum (map (fun m => 1 - m) miou) in
    let sigma2 := gau_sigma args in
    let input_conf_s := map (fun c => conf_transform sigma2 (fst c)) input_conf in
    let input_conf_e := map (fun c => conf_transform sigma2 (snd c)) input_conf in
    let iou_mask := map (fun m => if Qltb (1#2) m then 1 else 0) miou in
    let masked_sq tgt (a : Q) := map (fun '(t, m) => (t - a) * (t - a) * m) (combine tgt iou_mask) in
    let loss_conf_s :=
      qsum (map (fun '(d, m) => d * m)
              (combine (map (fun '(t, c) => (t - c) * (t - c)) (combine target_start input_conf_s))
                       iou_mask)) in
    let loss_conf_e :=
      qsum (map (fun '(d, m) => d * m)
              (combine (map (fun '(t, c) => (t - c) * (t - c)) (combine target_end input_conf_e))
                       iou_mask)) in
    let loss_conf := (1#2) * loss_conf_s + (1#2) * loss_conf_e in
    let la := concat (map (fun a => masked_sq target_action (sigmoid a)) input_actionness) in
    let loss_action := qsum la / inject_Z (Z.of_nat (length la)) in
    let loss := sigma1 args * loss_offset + loss_weight_boundary_conf args * loss_conf in
    inr (loss, loss_action).

End CtrGIoU.

End GIoULoss.

(** ** [sigmoid_focal_loss] (real arithmetic) *)

Module Focal.
Import Decode.
Local Open Scope R_scope.

(** [F.binary_cross_entropy_with_logits(x, t, reduction="none")]. *)
Definition bce_with_logits (x t : R) : R :=
  - (t * ln (sigmoid x) + (1 - t) * ln (1 - sigmoid x)).

(** One element of [sigmoid_focal_loss] with [gamma = 2.0]. *)
Definition focal_elem (alpha x t : R) : R :=
  let p := sigmoid x in
  let ce_loss := bce_with_logits x t in
  let p_t := p * t + (1 - p) * (1 - t) in
  let loss := ce_loss * (1 - p_t) ^ 2 in
  if Rle_dec 0 alpha then (alpha * t + (1 - alpha) * (1 - t)) * loss else loss.

Definition rsum (l : list R) : R := fold_right Rplus 0 l.

(** [sigmoid_focal_loss(inputs, targets, reduction='sum', alpha)] on rows of
    logits and rows of targets. *)
Definition sigmoid_focal_loss (alpha : R) (inputs targets : list (list R)) : R :=
  rsum (map (fun '(xs, ts) => rsum (map (fun '(x, t) => focal_elem alpha x t) (combine xs ts)))
            (combine inputs targets)).

(** [alpha = 0.25], the default [losses] relies on. *)
Definition alpha_default : R := 1 / 4.

End Focal.

(** ** Overlap ratios of the boundary labels *)

Module Overlap.

(** [iou_with_anchors] on one anchor and one box. *)
Definition iou_with_anchors (anchors_min anchors_max box_min box_max : Q) : Q :=
  let int_xmin := Qmax anchors_min box_min in
  let int_xmax := Qmin anchors_max box_max in
  let inter_len := Qmax (int_xmax - int_xmin) 0 in
  let union_len := (anchors_max - anchors_min) + (box_max - box_min) - inter_len in
  inter_len / union_len.

End Overlap.

(** ** Batching of the inputs ([preprocessing_visual], [preprocessing_audio]) *)

Module Preprocess.

(** A feature map [C x T] is the list of its [T] time steps; a step's
    channel vector is an [A]. *)
Inductive PreError :=
| RuntimeError_empty_max        (* [feats_lens.max(0)] of an empty batch *)
| AssertionError_max_seq_len    (* training: input longer than [max_seq_len] *)
| AssertionError_batch_size     (* inference: batch size other than 1 *)
| IndexError_video_list.        (* [video_list[1]] in the training [forward] *)

Record PCfg := mkPCfg { training : bool; max_seq_len : nat; max_div_factor : nat }.

(** [feats_lens.max(0).values.item()] *)
Definition list_max (l : list nat) : option nat :=
  match l with
  | [] => None
  | x :: r => Some (fold_left Nat.max r x)
  end.

(** [torch.arange(max_len)[None, :] < feats_lens[:, None]] *)
Definition masks_of (max_len : nat) (feats_lens : list nat) : list (list bool) :=
  map (fun l => map (fun t => Nat.ltb t l) (seq 0 max_len)) feats_lens.

(** [pad_feat[..., :feat.shape[-1]].copy_(feat)] into a [padding_val]
    buffer of length [max_len], and [F.pad(feat, [0, max_len - T])]. *)
Definition pad_to {A} (padding_val : A) (max_len : nat) (f : list A) : list A :=
  f ++ repeat padding_val (max_len - length f).

(** [preprocessing_visual] / [preprocessing_audio] (the two bodies are the
    same): batched inputs and masks. *)
Definition preprocessing {A} (c : PCfg) (padding_val : A) (feats : list (list A))
    : PreError + (list (list A) * list (list bool)) :=
  let feats_lens := map (@length A) feats in
  match list_max feats_lens with
  | None => inl RuntimeError_empty_max
  | Some max_len =>
      if training c then
        if Nat.leb max_len (max_seq_len c) then
          let max_len := max_seq_len c in
          inr (map (pad_to padding_val max_len) feats, masks_of max_len feats_lens)
        else inl AssertionError_max_seq_len
      else
        match feats with
        | [f] =>
            let max_len :=
              if Nat.leb max_len (max_seq_len c) then max_seq_len c
              else let stride := max_div_factor c in
                   ((max_len + (stride - 1)) / stride * stride)%nat in
            inr ([pad_to padding_val max_len f], masks_of max_len feats_lens)
        | _ => inl AssertionError_batch_size
        end
  end.

(** A video of [video_list] as far as [forward] reads it before the network. *)
Record PVideo (A : Type) := mkPVideo { video_id : nat; feats_v : list A; feats_a : list A }.
Arguments mkPVideo {A}.
Arguments video_id {A}.
Arguments feats_v {A}.
Arguments feats_a {A}.

(** The start of [PtTransformer.forward]: both preprocessing calls, then in
    training [vid_idx = [video_list[0]['video_id'], video_list[1]['video_id']]]. *)
Definition forward_prelude {A} (c : PCfg) (padding_val : A) (videos : list (PVideo A))
    : PreError + (list (list A) * list (list bool) * list (list A) * list (list bool) * list nat) :=
  match preprocessing c padding_val (map feats_v videos) with
  | inl e => inl e
  | inr (iv, mv) =>
      match preprocessing c padding_val (map feats_a videos) with
      | inl e => inl e
      | inr (ia, ma) =>
          if training c then
            match videos with
            | v0 :: v1 :: _ => inr (iv, mv, ia, ma, [video_id v0; video_id v1])
            | _ => inl IndexError_video_list
            end
          else inr (iv, mv, ia, ma, [])
      end
  end.

End Preprocess.

(** ** Candidate selection of one FPN level in [inference_single_video] *)

Module InferLevel.
Import Assigner Decode.

(** [pred_prob.sort(descending=True)] on (index, score) pairs: insertion
    in front of the first strictly smaller score. *)
Fixpoint insert_desc (x : nat * Q) (l : list (nat * Q)) : list (nat * Q) :=
  match l with
  | [] => [x]
  | y :: r => if Qltb (snd y) (snd x) then x :: y :: r else y :: insert_desc x r
  end.

Fixpoint sort_desc (l : list (nat * Q)) : list (nat * Q) :=
  match l with
  | [] => []
  | x :: r => insert_desc x (sort_desc r)
  end.

(** [t[:, :k] * mask_i.unsqueeze(-1)] on a list of rows. *)
Definition mask_rows {A} (zero : A) (mul : A -> A -> A) (one : A) (k : nat)
    (rows : list (list A)) (mask : list bool) : list (list A) :=
  map (fun '((row, b) : list A * bool) => map (fun s => mul s (if b then one else zero)) (firstn k row))
      (combine rows mask).

Record TestCfg := mkTestCfg {
  pre_nms_thresh : Q; pre_nms_topk : nat; duration_thresh : Q }.

(** A detection: segment, score, verb label, noun label. *)
Definition Detection := ((Q * Q) * Q * Z * Z)%type.

(** Steps of [inference_single_video] after the sort of the class scores,
    for one level: [cls_*_score]/[cls_*_label] are the rows sorted in
    descending order, [offsets_i] the predicted offsets, [pts_i] the points. *)
Definition inference_level (tc : TestCfg) (pts_i : list Point) (mask_i : list bool)
    (cls_verb_score cls_noun_score : list (list Q))
    (cls_verb_label cls_noun_label : list (list Z)) (offsets_i : list (Q * Q))
    : list Detection :=
  let cls_verb_score_topk := mask_rows 0 Qmult 1 verb_topk cls_verb_score mask_i in
  let cls_verb_label_topk := mask_rows 0%Z Z.mul 1%Z verb_topk cls_verb_label mask_i in
  let cls_noun_score_topk := mask_rows 0 Qmult 1 noun_topk cls_noun_score mask_i in
  let cls_noun_label_topk := mask_rows 0%Z Z.mul 1%Z noun_topk cls_noun_label mask_i in
  let pred_prob := flat_scores cls_noun_score_topk cls_verb_score_topk in
  (* 1. keep the candidates above the squared threshold *)
  let kept := filter (fun '(_, p) => Qltb (pre_nms_thresh tc * pre_nms_thresh tc) p)
                     (combine (seq 0 (length pred_prob)) pred_prob) in
  (* 2. the top [num_topk] by score *)
  let num_topk := Nat.min (pre_nms_topk tc) (length kept) in
  let top := firstn num_topk (sort_desc kept) in
  let dets := map (fun '(idx, p) =>
      let '(pt_idx, n, v) := decompose idx in
      let off := nth pt_idx offsets_i (0, 0) in
      let pt := nth pt_idx pts_i (mkPoint 0 0 0 0) in
      (* 4. [seg_left], [seg_right] *)
      let seg := (pt_t pt - fst off * pt_stride pt, pt_t pt + snd off * pt_stride pt) in
      (seg, p, at2 0%Z cls_verb_label_topk pt_idx v, at2 0%Z cls_noun_label_topk pt_idx n))
    top in
  (* 5. keep the segments longer than [duration_thresh] *)
  filter (fun '(seg, _, _, _) => Qltb (duration_thresh tc) (snd seg - fst seg)) dets.

End InferLevel.

(** ** Conversion to seconds in [postprocessing] *)

Module Postprocess.

Record VidResult := mkVidResult {
  fps : Q; duration : Q; feat_stride : Q; feat_num_frames : Q;
  segments : list (Q * Q); scores : list Q; labels_verb : list Z; labels_noun : list Z }.

Section Postprocess.

(** [batched_nms] (not part of this repository) and whether
    [test_nms_method != 'none']. *)
Variable batched_nms : list (Q * Q) -> list Q -> list Z -> list Z ->
  list (Q * Q) * list Q * list Z * list Z.
Variable use_nms : bool.

(** [(segs * stride + 0.5 * nframes) / fps], then [segs[segs<=0.0] *= 0.0]
    and [segs[segs>=vlen] = segs[segs>=vlen] * 0.0 + vlen] (the second mask
    is taken after the first update). *)
Definition to_seconds (stride nframes fps vlen v : Q) : Q :=
  let v := (v * stride + (1#2) * nframes) / fps in
  let v := if Qle_bool v 0 then v * 0 else v in
  if Qle_bool vlen v then v * 0 + vlen else v.

Definition postprocess_video (r : VidResult) : list (Q * Q) * list Q * list Z * list Z :=
  let '(segs, sc, lv, ln) :=
    if use_nms then batched_nms (segments r) (scores r) (labels_verb r) (labels_noun r)
    else (segments r, scores r, labels_verb r, labels_noun r) in
  let conv := to_seconds (feat_stride r) (feat_num_frames r) (fps r) (duration r) in
  let segs := match segs with
              | [] => []
              | _ => map (fun '(a, b) => (conv a, conv b)) segs
              end in
  (segs, sc, lv, ln).

Definition postprocessing (results : list VidResult) :=
  map postprocess_video results.

End Postprocess.

End Postprocess.

(** * Concrete configurations and inputs *)

Module Scenarios.
Import Assigner.

(** 97 verb and 300 noun classes, as hard-coded in [inference_single_video]. *)
Definition cfg_with (mode : CenterSample) (radius : Q) : Cfg := mkCfg 97 300 mode radius.
Definition cfg_none : Cfg := cfg_with CS_none 0.
Definition cfg_radius : Cfg := cfg_with CS_radius (3#2).

(** One level, stride 1, regression range [0, 8], anchors [t = 0..5]. *)
Definition six_points : list Point :=
  map (fun t => mkPoint (inject_Z t) 0 8 1) [0; 1; 2; 3; 4; 5]%Z.

(** Score rows [1, 2, ..., k]. *)
Definition ramp (k : nat) : list Q := map (fun i => inject_Z (Z.of_nat i)) (seq 1 k).

End Scenarios.

Module LossScenarios.
Import Losses.

(** A one-point batch: stream outputs and targets of unit type. *)
Definition unit_hyper : Hyper := mkHyper 97 300 0 1 1 1 1.
Definition unit_visual : Stream unit unit := mkStream [true] [tt] [tt] (Some [tt]).
Definition unit_audio : Stream unit unit := mkStream [true] [tt] [tt] None.
Definition bg_targets : Targets := mkTargets [97%Z] [300%Z] [(0, 0)] [0] [0] [0].
Definition fg_targets : Targets := mkTargets [1%Z] [1%Z] [(1, 1)] [1] [1] [1].

End LossScenarios.

(** * Facts about the target assigner *)

Ltac qlra := Lqa.lra.

Module AssignerFacts.
Import Assigner.

Lemma Qltb_true a b : Qltb a b = true <-> a < b.
Proof.
  unfold Qltb. rewrite negb_true_iff. split; intro H.
  - apply Qnot_le_lt. intro H'. apply Qle_bool_iff in H'. congruence.
  - destruct (Qle_bool b a) eqn:E; [|reflexivity].
    apply Qle_bool_iff in E. exfalso. apply (Qlt_not_le _ _ H E).
Qed.

Lemma olt_irrefl v : olt v v = false.
Proof.
  destruct v as [x|]; [|reflexivity]. simpl.
  destruct (Qltb x x) eqn:E; [|reflexivity].
  apply Qltb_true in E. exfalso. apply (Qlt_irrefl _ E).
Qed.

(** [not (v < b)] and [b' < b] give [not (v < b')]. *)
Lemma olt_false_step v b b' : olt v b = false -> olt b' b = true -> olt v b' = false.
Proof.
  destruct v as [x|], b as [y|], b' as [z|]; simpl; try discriminate; auto.
  intros H1 H2. apply Qltb_true in H2.
  destruct (Qltb x z) eqn:E; [|reflexivity]. apply Qltb_true in E.
  assert (Hx : x < y) by (eapply Qlt_trans; eauto).
  apply Qltb_true in Hx. congruence.
Qed.

Lemma argmin_from_spec l : forall pre best bi,
  nth_error pre bi = Some best ->
  (forall v, In v pre -> olt v best = false) ->
  let '(m, k) := argmin_from (length pre) best bi l in
  nth_error (pre ++ l) k = Some m /\ (forall v, In v (pre ++ l) -> olt v m = false).
Proof.
  induction l as [|v l IH]; intros pre best bi Hbi Hmin; simpl.
  - rewrite app_nil_r. auto.
  - assert (Hlen : S (length pre) = length (pre ++ [v]))
      by (rewrite length_app; simpl; lia).
    replace (pre ++ v :: l) with ((pre ++ [v]) ++ l)
      by (rewrite <- app_assoc; reflexivity).
    rewrite Hlen. destruct (olt v best) eqn:E.
    + apply IH.
      * rewrite nth_error_app2 by lia. rewrite Nat.sub_diag. reflexivity.
      * intros u Hu. apply in_app_or in Hu as [Hu|[<-|[]]].
        -- eapply olt_false_step; eauto.
        -- apply olt_irrefl.
    + apply IH.
      * rewrite nth_error_app1; auto.
        apply nth_error_Some. congruence.
      * intros u Hu. apply in_app_or in Hu as [Hu|[<-|[]]]; auto.
Qed.

Lemma torch_min_spec l m k :
  l <> [] -> torch_min l = (m, k) ->
  nth_error l k = Some m /\ (forall v, In v l -> olt v m = false).
Proof.
  destruct l as [|v l]; [congruence|]. intros _ H. simpl in H.
  pose proof (argmin_from_spec l [v] v 0 eq_refl) as Hs.
  simpl in Hs. rewrite H in Hs. apply Hs.
  intros u [<-|[]]. apply olt_irrefl.
Qed.

(** A point that qualifies for a segment lies strictly inside it, and its
    largest distance to the boundaries lies in its regression band, in both
    center-sampling modes. *)
Lemma masked_len_some cfg p g l :
  masked_len cfg p g = Some l ->
  0 < pt_t p - fst g /\ 0 < snd g - pt_t p /\
  pt_reg_min p <= Qmax (pt_t p - fst g) (snd g - pt_t p) <= pt_reg_max p /\
  l = snd g - fst g.
Proof.
  unfold masked_len. destruct g as [s e]. cbn [fst snd].
  destruct (inside_gt_seg cfg p (s, e)) eqn:Hin; [|intro; discriminate].
  destruct (inside_regress_range p (s, e)) eqn:Hr; [|intro; discriminate].
  intros H. injection H as <-.
  unfold inside_regress_range in Hr. apply andb_true_iff in Hr as [H1 H2].
  apply Qle_bool_iff in H1. apply Qle_bool_iff in H2.
  unfold inside_gt_seg in Hin.
  destruct (train_center_sample cfg); apply Qltb_true in Hin.
  - apply Q.min_glb_lt_iff in Hin as [Hl Hr'].
    match type of Hl with context [Qmax ?a s] => pose proof (Q.le_max_r a s) end.
    match type of Hr' with context [Qmin ?a e] => pose proof (Q.le_min_r a e) end.
    repeat split; auto; qlra.
  - apply Q.min_glb_lt_iff in Hin as [Hl Hr']. repeat split; auto.
Qed.

(** Unpacking [assign_point] when the row minimum is finite. *)
Lemma assign_point_matched cfg gts lv ln p :
  (forall l k, torch_min (map (masked_len cfg p) gts) <> (Some l, k)) \/
  exists l k g,
    torch_min (map (masked_len cfg p) gts) = (Some l, k) /\
    nth_error gts k = Some g /\ masked_len cfg p g = Some l /\
    (forall j gj lj, nth_error gts j = Some gj -> masked_len cfg p gj = Some lj -> l <= lj) /\
    assign_point cfg gts lv ln p =
      (nth k lv 0%Z, nth k ln 0%Z,
       ((pt_t p - fst g) / pt_stride p, (snd g - pt_t p) / pt_stride p)).
Proof.
  destruct (torch_min (map (masked_len cfg p) gts)) as [[l|] k] eqn:E.
  - right. assert (Hne : map (masked_len cfg p) gts <> []).
    { intro H. rewrite H in E. discriminate. }
    destruct (torch_min_spec _ _ _ Hne E) as [Hk Hall].
    rewrite nth_error_map in Hk.
    destruct (nth_error gts k) as [g|] eqn:Eg; [|discriminate].
    simpl in Hk. injection Hk as Hg.
    exists l, k, g. repeat split; auto.
    + intros j gj lj Hj Hlj.
      assert (Hin : In (Some lj) (map (masked_len cfg p) gts)).
      { rewrite <- Hlj. apply in_map. eapply nth_error_In; eauto. }
      specialize (Hall _ Hin). simpl in Hall.
      apply Qnot_lt_le. intro Hlt. apply Qltb_true in Hlt. congruence.
    + unfold assign_point. rewrite E.
      rewrite (nth_error_nth _ _ _ Eg). destruct g. reflexivity.
  - left. intros l' k' H. discriminate.
Qed.

(** Case analysis on every [Qmax]/[Qmin] of the context, then [lra] on Q. *)
Ltac qminmax_lra :=
  repeat match goal with
  | H : context [Qmax ?a ?b] |- _ =>
      let m := fresh "m" in
      destruct (Q.max_spec_le a b) as [[? ?]|[? ?]]; set (m := Qmax a b) in *; clearbody m
  | H : context [Qmin ?a ?b] |- _ =>
      let m := fresh "m" in
      destruct (Q.min_spec_le a b) as [[? ?]|[? ?]]; set (m := Qmin a b) in *; clearbody m
  | |- context [Qmax ?a ?b] =>
      let m := fresh "m" in
      destruct (Q.max_spec_le a b) as [[? ?]|[? ?]]; set (m := Qmax a b) in *; clearbody m
  | |- context [Qmin ?a ?b] =>
      let m := fresh "m" in
      destruct (Q.min_spec_le a b) as [[? ?]|[? ?]]; set (m := Qmin a b) in *; clearbody m
  end; qlra.

End AssignerFacts.

Module AssignerClaims.
Import Assigner AssignerFacts Scenarios.

Lemma label_points_fold_err cen cfg cp vs e :
  fold_left (fun acc '(gs, lv, ln) =>
      match acc with
      | inl err => inl err
      | inr (a, b, c, d, e, f) =>
          match label_points_single_video cen cfg cp gs lv ln with
          | LP3 _ _ _ => inl ValueError_unpack
          | LP6 cv cn reg st en act =>
              inr (a ++ [cv], b ++ [cn], c ++ [reg], d ++ [st], e ++ [en], f ++ [act])
          end
      end) vs (inl e) = inl e.
Proof.
  induction vs as [|[[gs lv] ln] vs IH]; simpl; auto.
Qed.

(** Claim C1 (code_bug).  For a video with no ground-truth segment,
    [label_points_single_video] takes the all-background early return (verb
    and noun sentinels at every point, zero regression targets), but that
    return is a 3-tuple, and [label_points], which unpacks six values per
    video, raises [ValueError] on any batch containing such a video. *)
Theorem label_points_empty_video_raises (cen_gauss : Q -> Q) cfg points pre post lv ln :
  label_points_single_video cen_gauss cfg (concat points) [] lv ln =
    LP3 (repeat (num_classes_verb cfg) (length (concat points)))
        (repeat (num_classes_noun cfg) (length (concat points)))
        (repeat (0, 0) (length (concat points))) /\
  label_points cen_gauss cfg points (pre ++ ([], lv, ln) :: post) = inl ValueError_unpack.
Proof.
  split; [reflexivity|].
  unfold label_points. rewrite fold_left_app. simpl.
  match goal with |- context [fold_left ?f pre ?a0] =>
    assert (Hpre : forall vs acc, (forall e, acc = inl e -> e = ValueError_unpack) ->
              forall e, fold_left f vs acc = inl e -> e = ValueError_unpack);
    [|pose proof (Hpre pre a0 ltac:(discriminate)) as Hp;
      destruct (fold_left f pre a0) as [e|[[[[[a b] c] d] e] f']]] end.
  - induction vs as [|[[gs lv'] ln'] vs IH]; intros acc Hacc; simpl; auto.
    apply IH. intros e He. destruct acc as [e'|[[[[[a b] c] d] e'] f']].
    + injection He as <-. apply Hacc. reflexivity.
    + destruct label_points_single_video; congruence.
  - rewrite (Hp e eq_refl). apply label_points_fold_err.
  - apply label_points_fold_err.
Qed.

(** On the six-anchor scenario, center sampling with any positive radius keeps
    exactly the anchors that are strictly inside [(2, 4)]. *)
Lemma six_points_radius_inside r p :
  0 < r -> In p six_points ->
  inside_gt_seg (cfg_with CS_radius r) p (2, 4) = inside_gt_seg cfg_none p (2, 4).
Proof.
  intros Hr Hp. apply Bool.eq_iff_eq_true.
  unfold six_points in Hp. simpl in Hp.
  repeat (destruct Hp as [<-|Hp]; [|]); [..|contradiction];
  unfold inside_gt_seg; cbn [train_center_sample cfg_with cfg_none pt_t pt_stride
    train_center_sample_radius]; unfold inject_Z; rewrite !Qltb_true;
  rewrite !Q.min_glb_lt_iff; split; intros [H1 H2];
  first [exfalso; qminmax_lra | split; qminmax_lra].
Qed.

Lemma assign_ext cfg1 cfg2 pts gts lv ln :
  num_classes_verb cfg1 = num_classes_verb cfg2 ->
  num_classes_noun cfg1 = num_classes_noun cfg2 ->
  (forall p g, In p pts -> In g gts -> masked_len cfg1 p g = masked_len cfg2 p g) ->
  assign cfg1 pts gts lv ln = assign cfg2 pts gts lv ln.
Proof.
  intros Hv Hn H. unfold assign.
  rewrite (map_ext_in (assign_point cfg1 gts lv ln) (assign_point cfg2 gts lv ln)).
  - reflexivity.
  - intros p Hp. unfold assign_point.
    rewrite (map_ext_in (masked_len cfg1 p) (masked_len cfg2 p)) by auto.
    rewrite Hv, Hn. reflexivity.
Qed.

(** Claim C3 (corrected), counterexample.  In the six-anchor scenario
    anchor 2 ([t = 2], left distance 0) is not strictly inside [(2, 4)]: it
    gets the background sentinels (97, 300), not verb 1 / noun 1, in both
    center-sampling modes (radius 1.5 shown). *)
Lemma six_points_anchor2_background :
  match label_points_single_video (fun _ => 1) cfg_none six_points [(2, 4)] [1%Z] [1%Z] with
  | LP6 cv cn _ _ _ _ => nth 2 cv 0%Z = 97%Z /\ nth 2 cn 0%Z = 300%Z
  | LP3 _ _ _ => False
  end /\
  match label_points_single_video (fun _ => 1) cfg_radius six_points [(2, 4)] [1%Z] [1%Z] with
  | LP6 cv cn _ _ _ _ => nth 2 cv 0%Z = 97%Z /\ nth 2 cn 0%Z = 300%Z
  | LP3 _ _ _ => False
  end.
Proof. vm_compute. auto. Qed.

(** Claim C3 (corrected).  Six anchors [t = 0..5], stride 1, range
    [0, 8], one segment [(2, 4)] with verb 1 and noun 1: only anchor 3 is
    assigned (verb 1, noun 1, offsets [(1, 1)]); anchors 0, 1, 2, 4 and 5 get
    the background sentinels, under [center_sample = 'none'] and under
    ['radius'] with any positive radius. *)
Theorem six_points_assignment (cen_gauss : Q -> Q) mode r :
  (mode = CS_none \/ 0 < r) ->
  match label_points_single_video cen_gauss (cfg_with mode r) six_points
          [(2, 4)] [1%Z] [1%Z] with
  | LP6 cv cn reg _ _ _ =>
      cv = [97; 97; 97; 1; 97; 97]%Z /\ cn = [300; 300; 300; 1; 300; 300]%Z /\
      fst (nth 3 reg (0, 0)) == 1 /\ snd (nth 3 reg (0, 0)) == 1
  | LP3 _ _ _ => False
  end.
Proof.
  intros Hm. unfold label_points_single_video.
  rewrite (assign_ext (cfg_with mode r) cfg_none); try reflexivity.
  2:{ intros p g Hp [<-|[]]. destruct mode; [|reflexivity].
      destruct Hm as [Hm|Hr]; [discriminate|].
      unfold masked_len. rewrite (six_points_radius_inside r p Hr Hp). reflexivity. }
  destruct (assign cfg_none six_points [(2, 4)] [1%Z] [1%Z]) as [[cv cn] reg] eqn:Ha.
  vm_compute in Ha. injection Ha as <- <- <-.
  destruct (boundary_labels cen_gauss [(2, 4)]) as [[a st] en].
  repeat split; vm_compute; reflexivity.
Qed.

Lemma six_points_assignment_witness :
  0 < 3 # 2 /\
  match label_points_single_video (fun _ => 0) (cfg_with CS_radius (3 # 2)) six_points
          [(2, 4)] [1%Z] [1%Z] with
  | LP6 cv cn reg _ _ _ =>
      cv = [97; 97; 97; 1; 97; 97]%Z /\ cn = [300; 300; 300; 1; 300; 300]%Z /\
      fst (nth 3 reg (0, 0)) == 1 /\ snd (nth 3 reg (0, 0)) == 1
  | LP3 _ _ _ => False
  end.
Proof.
  split; [vm_compute; reflexivity|].
  apply (six_points_assignment (fun _ => 0) CS_radius (3 # 2)).
  right. vm_compute. reflexivity.
Defined.

(** A point that qualifies for some segment is matched: the row minimum is
    finite. *)
Lemma assign_point_qualified cfg gts lv ln p j gj lj :
  nth_error gts j = Some gj -> masked_len cfg p gj = Some lj ->
  exists l k g,
    torch_min (map (masked_len cfg p) gts) = (Some l, k) /\
    nth_error gts k = Some g /\ masked_len cfg p g = Some l /\
    (forall j' gj' lj', nth_error gts j' = Some gj' -> masked_len cfg p gj' = Some lj' -> l <= lj') /\
    assign_point cfg gts lv ln p =
      (nth k lv 0%Z, nth k ln 0%Z,
       ((pt_t p - fst g) / pt_stride p, (snd g - pt_t p) / pt_stride p)).
Proof.
  intros Hj Hlj.
  destruct (assign_point_matched cfg gts lv ln p) as [Hnone|H]; [|exact H].
  exfalso.
  destruct (torch_min (map (masked_len cfg p) gts)) as [[l|] k] eqn:E.
  - exact (Hnone l k eq_refl).
  - assert (Hin : In (Some lj) (map (masked_len cfg p) gts)).
    { rewrite <- Hlj. apply in_map. eapply nth_error_In; eauto. }
    assert (Hne : map (masked_len cfg p) gts <> []) by (intro Hn; rewrite Hn in Hin; contradiction).
    destruct (torch_min_spec _ _ _ Hne E) as [_ Hall].
    specialize (Hall _ Hin). discriminate.
Qed.

(** Claim C5.  Whenever a point qualifies for a ground-truth segment, the
    assigner picks a qualifying segment [g] (index [k]) whose duration is
    minimal among all segments the point qualifies for, and takes its labels
    and offsets; on the point [t = 5] (range [0, 8], stride 1) with admissible
    segments [(0, 10)] (labels 1/3) and [(4, 6)] (labels 2/4) it assigns
    [(4, 6)], in both center-sampling modes. *)
Theorem assign_point_shortest :
  (forall cfg gts lv ln p j gj lj,
     nth_error gts j = Some gj -> masked_len cfg p gj = Some lj ->
     exists k g l,
       nth_error gts k = Some g /\ masked_len cfg p g = Some l /\
       (forall j' gj' lj', nth_error gts j' = Some gj' ->
          masked_len cfg p gj' = Some lj' -> l <= lj') /\
       assign_point cfg gts lv ln p =
         (nth k lv 0%Z, nth k ln 0%Z,
          ((pt_t p - fst g) / pt_stride p, (snd g - pt_t p) / pt_stride p))) /\
  (forall cfg, cfg = cfg_none \/ cfg = cfg_radius ->
     let '(cv, cn, r) :=
       assign_point cfg [(0, 10); (4, 6)] [1; 2]%Z [3; 4]%Z (mkPoint 5 0 8 1) in
     cv = 2%Z /\ cn = 4%Z /\ fst r == 1 /\ snd r == 1).
Proof.
  split.
  - intros cfg gts lv ln p j gj lj Hj Hlj.
    destruct (assign_point_qualified cfg gts lv ln p j gj lj Hj Hlj)
      as (l & k & g & _ & Hg & Hl & Hmin & Ha).
    exists k, g, l. auto.
  - intros cfg [-> | ->]; vm_compute; repeat split; reflexivity.
Qed.

Lemma assign_point_shortest_witness :
  (nth_error [(0, 10); (4, 6)] 0%nat = Some (0, 10) /\
   masked_len cfg_none (mkPoint 5 0 8 1) (0, 10) = Some 10) /\
  (exists k g l,
     nth_error [(0, 10); (4, 6)] k = Some g /\
     masked_len cfg_none (mkPoint 5 0 8 1) g = Some l /\
     (forall j' gj' lj', nth_error [(0, 10); (4, 6)] j' = Some gj' ->
        masked_len cfg_none (mkPoint 5 0 8 1) gj' = Some lj' -> l <= lj') /\
     assign_point cfg_none [(0, 10); (4, 6)] [1; 2]%Z [3; 4]%Z (mkPoint 5 0 8 1) =
       (nth k [1; 2]%Z 0%Z, nth k [3; 4]%Z 0%Z,
        ((5 - fst g) / 1, (snd g - 5) / 1))).
Proof.
  split; [split; reflexivity|].
  apply (proj1 assign_point_shortest cfg_none [(0, 10); (4, 6)] [1; 2]%Z [3; 4]%Z
           (mkPoint 5 0 8 1) 0%nat (0, 10) 10); reflexivity.
Defined.

Lemma Qmax_mult_pos s a b : 0 < s -> s * Qmax a b == Qmax (s * a) (s * b).
Proof.
  intros Hs. destruct (Q.max_spec_le a b) as [[H1 H2]|[H1 H2]]; rewrite H2.
  - rewrite Q.max_r; [reflexivity|]. apply Qmult_le_l; auto.
  - rewrite Q.max_l; [reflexivity|]. apply Qmult_le_l; auto.
Qed.

(** Claim C6 (corrected), counterexample.  A point [t = 10] of stride 2
    with regression range [4, 8] (the band of the second pyramid level) and
    the segment [(4, 16)]: distances [(6, 6)] are in the band, the point is
    assigned (verb 0), but the returned, stride-normalised target is
    [(3, 3)], whose maximum 3 lies below [reg_min = 4]. *)
Lemma reg_target_outside_band_stride2 :
  let '(cv, cn, r) := assign_point cfg_none [(4, 16)] [0%Z] [0%Z] (mkPoint 10 4 8 2) in
  cv = 0%Z /\ cn = 0%Z /\ fst r == 3 /\ snd r == 3 /\ ~ (4 <= Qmax (fst r) (snd r)).
Proof.
  vm_compute. repeat split; try reflexivity. intro H. apply H. reflexivity.
Qed.

(** Claim C6 (corrected).  For a point with positive stride whose verb or
    noun target is not the background sentinel, in both center-sampling
    modes, there is a segment [g] of the video such that the raw distances
    [left = t - start] and [right = end - t] are strictly positive with
    [max(left, right)] in [[reg_min, reg_max]]; the returned regression target
    is [(left / stride, right / stride)], hence strictly positive, and its
    maximum times the stride lies in the band. *)
Theorem assign_point_reg_target cfg gts lv ln p :
  0 < pt_stride p ->
  (fst (fst (assign_point cfg gts lv ln p)) <> num_classes_verb cfg \/
   snd (fst (assign_point cfg gts lv ln p)) <> num_classes_noun cfg) ->
  exists g, In g gts /\
    0 < pt_t p - fst g /\ 0 < snd g - pt_t p /\
    pt_reg_min p <= Qmax (pt_t p - fst g) (snd g - pt_t p) <= pt_reg_max p /\
    snd (assign_point cfg gts lv ln p) =
      ((pt_t p - fst g) / pt_stride p, (snd g - pt_t p) / pt_stride p) /\
    0 < fst (snd (assign_point cfg gts lv ln p)) /\
    0 < snd (snd (assign_point cfg gts lv ln p)) /\
    pt_reg_min p <= pt_stride p * Qmax (fst (snd (assign_point cfg gts lv ln p)))
                                       (snd (snd (assign_point cfg gts lv ln p)))
                 <= pt_reg_max p.
Proof.
  intros Hs Hcls.
  destruct (assign_point_matched cfg gts lv ln p) as [Hnone|(l & k & g & E & Hg & Hl & _ & Ha)].
  - exfalso.
    destruct (torch_min (map (masked_len cfg p) gts)) as [[l|] k] eqn:E.
    + exact (Hnone l k eq_refl).
    + unfold assign_point in Hcls. rewrite E in Hcls.
      destruct (nth k gts (0, 0)). simpl in Hcls. tauto.
  - destruct (masked_len_some cfg p g l Hl) as (Hlft & Hrgt & [Hb1 Hb2] & _).
    exists g. rewrite Ha. cbn [fst snd].
    assert (Hs0 : ~ pt_stride p == 0) by (intro H; rewrite H in Hs; discriminate).
    assert (Hm : pt_stride p * Qmax ((pt_t p - fst g) / pt_stride p) ((snd g - pt_t p) / pt_stride p)
                 == Qmax (pt_t p - fst g) (snd g - pt_t p)).
    { rewrite Qmax_mult_pos by auto. rewrite !Qmult_div_r by auto. reflexivity. }
    repeat split; auto.
    + eapply nth_error_In; eauto.
    + apply Qlt_shift_div_l; auto. rewrite Qmult_0_l. auto.
    + apply Qlt_shift_div_l; auto. rewrite Qmult_0_l. auto.
    + rewrite Hm. auto.
    + rewrite Hm. auto.
Qed.

Lemma assign_point_reg_target_witness :
  (0 < 2 /\ fst (fst (assign_point cfg_none [(4, 16)] [0%Z] [0%Z] (mkPoint 10 4 8 2)))
              <> 97%Z) /\
  exists g, In g [(4, 16)] /\
    0 < 10 - fst g /\ 0 < snd g - 10 /\
    4 <= Qmax (10 - fst g) (snd g - 10) <= 8 /\
    snd (assign_point cfg_none [(4, 16)] [0%Z] [0%Z] (mkPoint 10 4 8 2)) =
      ((10 - fst g) / 2, (snd g - 10) / 2) /\
    0 < fst (snd (assign_point cfg_none [(4, 16)] [0%Z] [0%Z] (mkPoint 10 4 8 2))) /\
    0 < snd (snd (assign_point cfg_none [(4, 16)] [0%Z] [0%Z] (mkPoint 10 4 8 2))) /\
    4 <= 2 * Qmax (fst (snd (assign_point cfg_none [(4, 16)] [0%Z] [0%Z] (mkPoint 10 4 8 2))))
                  (snd (snd (assign_point cfg_none [(4, 16)] [0%Z] [0%Z] (mkPoint 10 4 8 2))))
      <= 8.
Proof.
  split; [split; [reflexivity | vm_compute; discriminate]|].
  apply (assign_point_reg_target cfg_none [(4, 16)] [0%Z] [0%Z] (mkPoint 10 4 8 2)).
  - reflexivity.
  - left. vm_compute. discriminate.
Defined.

Lemma ioa_unit_anchor a b0 b1 : unit_interval (ioa_with_anchors a (a + 1) b0 b1).
Proof.
  unfold unit_interval, ioa_with_anchors.
  assert (H1 : a + 1 - a == 1) by ring. rewrite H1.
  unfold Qdiv. replace (/ 1) with 1 by reflexivity. rewrite Qmult_1_r.
  split; qminmax_lra.
Qed.

Lemma fold_Qmax_unit r : forall x,
  unit_interval x -> Forall unit_interval r -> unit_interval (fold_left Qmax r x).
Proof.
  induction r as [|y r IH]; intros x Hx Hr; simpl; auto.
  inversion Hr as [|? ? Hy Hr']; subst. apply IH; auto.
  unfold unit_interval in *. split; qminmax_lra.
Qed.

Lemma np_max_unit l : Forall unit_interval l -> unit_interval (np_max l).
Proof.
  destruct l as [|x r]; intros H.
  - unfold unit_interval, np_max. split; discriminate.
  - inversion H; subst. apply fold_Qmax_unit; auto.
Qed.

Lemma level_labels_unit cen gts n ratio :
  let '(_, st, en) := level_labels cen gts n ratio in
  Forall unit_interval st /\ Forall unit_interval en.
Proof.
  unfold level_labels. split; apply Forall_forall; intros x Hx;
    apply in_map_iff in Hx as (a & <- & _); apply np_max_unit;
    apply Forall_forall; intros y Hy; apply in_map_iff in Hy as (b & <- & _);
    apply ioa_unit_anchor.
Qed.

Lemma boundary_labels_unit cen gts :
  let '(_, st, en) := boundary_labels cen gts in
  Forall unit_interval st /\ Forall unit_interval en.
Proof.
  unfold boundary_labels.
  generalize (combine num_levels level_ratio) as lv.
  assert (Hgen : forall lv a s e, Forall unit_interval s -> Forall unit_interval e ->
    let '(_, st, en) := fold_left (fun '(a, s, e) '(n, r) =>
      let '(a', s', e') := level_labels cen gts n r in (a ++ a', s ++ s', e ++ e'))
      lv (a, s, e) in Forall unit_interval st /\ Forall unit_interval en).
  { induction lv as [|[n r] lv IH]; intros a s e Hs He; cbn [fold_left]; auto.
    pose proof (level_labels_unit cen gts n r) as Hl.
    destruct (level_labels cen gts n r) as [[a' s'] e'].
    destruct Hl. apply IH; apply Forall_app; auto. }
  intros lv. apply Hgen; constructor.
Qed.

(** Claim C9.  For every ground-truth segment set (any start and end,
    zero-length segments included), every entry of the dense [start_score]
    and [end_score] label arrays returned by [label_points_single_video],
    over all six resolutions, lies in [[0, 1]]; each entry is the maximum
    over ground truths of [ioa_with_anchors] on a unit anchor [(x, x+1)]
    against a window of half-width [max(1, 0.1 * len) / 2]. *)
Theorem start_end_scores_unit_interval (cen_gauss : Q -> Q) cfg pts gts lv ln :
  match label_points_single_video cen_gauss cfg pts gts lv ln with
  | LP6 _ _ _ start_gt end_gt _ =>
      Forall (fun x => 0 <= x <= 1) start_gt /\ Forall (fun x => 0 <= x <= 1) end_gt
  | LP3 _ _ _ => True
  end.
Proof.
  unfold label_points_single_video. destruct gts as [|g gts]; [exact I|].
  destruct (assign cfg pts (g :: gts) lv ln) as [[cv cn] reg].
  pose proof (boundary_labels_unit cen_gauss (g :: gts)) as H.
  destruct (boundary_labels cen_gauss (g :: gts)) as [[a st] en]. exact H.
Qed.

End AssignerClaims.

Module LossClaims.
Import Losses LossScenarios.

Section LossClaims.

Variable Logit VisPred : Type.
Variable sigmoid_focal_loss : list Logit -> list (list Q) -> Q.
Variable ctr_giou_loss_1d :
  list VisPred -> list (Q * Q) -> list Q -> list Q -> list Q -> Q * Q.
Variable offsets_sum : list VisPred -> Q.

Let losses := losses sigmoid_focal_loss ctr_giou_loss_1d offsets_sum.
Let forward_train := forward_train sigmoid_focal_loss ctr_giou_loss_1d offsets_sum.

(** Claim C2 (code_bug).  When the visual stream has no positive point, the
    [num_pos == 0] branch sets [reg_loss = 0 * pred_offsets.sum()] but never
    assigns [actionness_loss], which the [return] then reads: the call raises
    (after updating the normalizer), and so does the training step. *)
Theorem losses_no_positive_raises h norm (vis aud : Stream Logit VisPred) tg vs :
  out_vis vis = Some vs -> num_pos h tg (fpn_mask vis) = 0%nat ->
  losses h norm vis tg = (ema_update norm 0, inl UnboundLocalError_actionness_loss) /\
  forward_train h norm vis aud tg = (ema_update norm 0, inl UnboundLocalError_actionness_loss).
Proof.
  intros Hv Hn. unfold forward_train, Losses.forward_train.
  assert (H : losses h norm vis tg = (ema_update norm 0, inl UnboundLocalError_actionness_loss)).
  { unfold losses, Losses.losses. rewrite Hv, Hn. reflexivity. }
  split; [exact H|]. unfold losses in H. rewrite H. reflexivity.
Qed.

(** Claim C4 (corrected).  One training step calls [losses] twice, for
    the visual and then for the audio stream, and each call applies the EMA
    rule [new = 0.9 * old + 0.1 * max(num_pos, 1)] (with that stream's mask):
    the normalizer is updated twice per step.  The regression loss is divided
    by the value after the first (visual) update; the verb and noun terms are
    divided by the fixed constants 250 and 500. *)
Theorem forward_train_normalizer h norm (vis aud : Stream Logit VisPred) tg vs :
  out_vis vis = Some vs -> out_vis aud = None ->
  (0 < num_pos h tg (fpn_mask vis))%nat ->
  let pm := pos_mask h tg (fpn_mask vis) in
  let n1 := ema_update norm (num_pos h tg (fpn_mask vis)) in
  fst (forward_train h norm vis aud tg) = ema_update n1 (num_pos h tg (fpn_mask aud)) /\
  exists act fin,
    snd (forward_train h norm vis aud tg) =
      inr (cls_loss sigmoid_focal_loss (num_classes_verb h) (train_label_smoothing h) 250
             (verb_cls_weight h) (fpn_mask vis) (out_cls_v vis) (gt_cls_v tg)
           + loss_a_weight h *
             cls_loss sigmoid_focal_loss (num_classes_verb h) (train_label_smoothing h) 250
               (verb_cls_weight h) (fpn_mask aud) (out_cls_v aud) (gt_cls_v tg),
           cls_loss sigmoid_focal_loss (num_classes_noun h) (train_label_smoothing h) 500
             (noun_cls_weight h) (fpn_mask vis) (out_cls_n vis) (gt_cls_n tg)
           + loss_a_weight h *
             cls_loss sigmoid_focal_loss (num_classes_noun h) (train_label_smoothing h) 500
               (noun_cls_weight h) (fpn_mask aud) (out_cls_n aud) (gt_cls_n tg),
           fst (ctr_giou_loss_1d (select pm vs) (select pm (gt_offsets tg))
                  (select pm (gt_start tg)) (select pm (gt_end tg))
                  (select pm (gt_action tg))) / n1,
           act, fin).
Proof.
  intros Hv Ha Hpos pm n1.
  unfold forward_train, Losses.forward_train, Losses.losses.
  rewrite Hv, Ha.
  destruct (Nat.eqb_spec (num_pos h tg (fpn_mask vis)) 0) as [E|_]; [lia|].
  destruct (ctr_giou_loss_1d _ _ _ _ _) as [reg act] eqn:Eg.
  cbn [fst snd]. split; [reflexivity|].
  eexists _, _. reflexivity.
Qed.

End LossClaims.

Lemma losses_no_positive_raises_witness :
  (out_vis unit_visual = Some [tt] /\
   num_pos unit_hyper bg_targets (fpn_mask unit_visual) = 0%nat) /\
  (Losses.losses (fun _ _ => 0) (fun _ _ _ _ _ => (0, 0)) (fun _ => 0)
     unit_hyper 100 unit_visual bg_targets
   = (ema_update 100 0, inl UnboundLocalError_actionness_loss) /\
   Losses.forward_train (fun _ _ => 0) (fun _ _ _ _ _ => (0, 0)) (fun _ => 0)
     unit_hyper 100 unit_visual unit_audio bg_targets
   = (ema_update 100 0, inl UnboundLocalError_actionness_loss)).
Proof.
  split; [split; reflexivity|].
  apply (losses_no_positive_raises unit unit (fun _ _ => 0) (fun _ _ _ _ _ => (0, 0))
           (fun _ => 0) unit_hyper 100 unit_visual unit_audio bg_targets [tt]);
    reflexivity.
Defined.


(** Claim C4 (corrected), counterexample.  With the normalizer at 100 and
    one positive, valid point in each stream, one training step leaves
    [0.9 * (0.9 * 100 + 0.1) + 0.1 = 81.19], not the single update
    [0.9 * 100 + 0.1 * 1 = 90.1]. *)
Lemma normalizer_updated_twice_per_step :
  fst (Losses.forward_train (fun _ _ => 0) (fun _ _ _ _ _ => (0, 0)) (fun _ => 0)
         unit_hyper 100 unit_visual unit_audio fg_targets) == 8119 # 100 /\
  ~ (fst (Losses.forward_train (fun _ _ => 0) (fun _ _ _ _ _ => (0, 0)) (fun _ => 0)
            unit_hyper 100 unit_visual unit_audio fg_targets) == ema_update 100 1).
Proof. vm_compute. split; [reflexivity | intro H; discriminate H]. Qed.

Lemma forward_train_normalizer_witness :
  (out_vis unit_visual = Some [tt] /\ out_vis unit_audio = None /\
   (0 < num_pos unit_hyper fg_targets (fpn_mask unit_visual))%nat) /\
  let pm := pos_mask unit_hyper fg_targets (fpn_mask unit_visual) in
  let n1 := ema_update 100 (num_pos unit_hyper fg_targets (fpn_mask unit_visual)) in
  fst (Losses.forward_train (fun _ _ => 0) (fun _ _ _ _ _ => (0, 0)) (fun _ => 0)
         unit_hyper 100 unit_visual unit_audio fg_targets)
    = ema_update n1 (num_pos unit_hyper fg_targets (fpn_mask unit_audio)) /\
  exists act fin,
    snd (Losses.forward_train (fun _ _ => 0) (fun _ _ _ _ _ => (0, 0)) (fun _ => 0)
           unit_hyper 100 unit_visual unit_audio fg_targets) =
      inr (cls_loss (fun _ _ => 0) 97 0 250 1 [true] [tt] [1%Z]
           + 1 * cls_loss (fun _ _ => 0) 97 0 250 1 [true] [tt] [1%Z],
           cls_loss (fun _ _ => 0) 300 0 500 1 [true] [tt] [1%Z]
           + 1 * cls_loss (fun _ _ => 0) 300 0 500 1 [true] [tt] [1%Z],
           fst ((fun (_ : list unit) (_ : list (Q * Q)) (_ _ _ : list Q) => (0, 0))
                  (select pm [tt]) (select pm [(1, 1)]) (select pm [1]) (select pm [1])
                  (select pm [1])) / n1,
           act, fin).
Proof.
  split; [repeat split; vm_compute; reflexivity|].
  exact (forward_train_normalizer unit unit (fun _ _ => 0) (fun _ _ _ _ _ => (0, 0))
           (fun _ => 0) unit_hyper 100 unit_visual unit_audio fg_targets [tt]
           eq_refl eq_refl ltac:(vm_compute; lia)).
Defined.

End LossClaims.

Module GIoUClaims.
Import GIoU.

Ltac qdecide := vm_compute; first [reflexivity | intro; discriminate].




End GIoUClaims.

Module DecodeClaims.
Import Decode Scenarios.

Lemma nth_concat_uniform {A} (k : nat) (bs : list (list A)) (d : A) : forall i,
  Forall (fun b => length b = k) bs -> (i < length bs * k)%nat ->
  nth i (concat bs) d = nth (i mod k) (nth (i / k) bs []) d.
Proof.
  induction bs as [|b bs IH]; intros i Hb Hi; simpl in *; [lia|].
  inversion Hb as [|? ? Hbk Hbs]; subst.
  destruct (Nat.lt_ge_cases i (length b)) as [Hlt|Hge].
  - rewrite app_nth1 by auto.
    rewrite Nat.div_small, Nat.mod_small by auto. reflexivity.
  - rewrite app_nth2 by auto.
    replace i with ((i - length b) + 1 * length b)%nat at 2 3 by lia.
    rewrite Nat.div_add by lia. rewrite Nat.Div0.mod_add.
    rewrite Nat.add_1_r. simpl. apply IH; auto. lia.
Qed.

Lemma nth_map_lt {A B} (f : A -> B) l n d d' :
  (n < length l)%nat -> nth n (map f l) d = f (nth n l d').
Proof.
  intros H. rewrite (nth_indep _ d (f d')) by (rewrite length_map; auto).
  apply map_nth.
Qed.

Lemma outer_block_nth ns vs r :
  length vs = verb_topk -> (r < length ns * verb_topk)%nat ->
  nth r (outer_block ns vs) 0 = nth (r / verb_topk) ns 0 * nth (r mod verb_topk) vs 0.
Proof.
  intros Hv Hr. unfold outer_block.
  rewrite (nth_concat_uniform verb_topk).
  - assert (Hd : (r / verb_topk < length ns)%nat).
    { apply Nat.Div0.div_lt_upper_bound. lia. }
    assert (Hm : (r mod verb_topk < length vs)%nat).
    { rewrite Hv. apply Nat.mod_upper_bound. unfold verb_topk. lia. }
    rewrite (nth_map_lt _ _ _ _ 0) by auto.
    rewrite (nth_map_lt _ _ _ _ 0) by auto. reflexivity.
  - apply Forall_forall. intros x Hx. apply in_map_iff in Hx as (n & <- & _).
    rewrite length_map. auto.
  - rewrite length_map. auto.
Qed.

(** Claim C7.  For [verb_topk = 11], [noun_topk = 33] and per-point top-k
    score rows of those lengths, every flat index [idx] of the flattened
    [[T x noun_topk x verb_topk]] outer-product scores decomposes into
    [(pt_idx, noun offset, verb offset) = (idx / 363, (idx mod 363) / 11,
    (idx mod 363) mod 11)], each in range, and the entry at [idx] is exactly
    [noun_scores[pt_idx][noun offset] * verb_scores[pt_idx][verb offset]]. *)
Theorem decompose_inverts_flatten (noun_scores verb_scores : list (list Q)) (idx : nat) :
  Forall (fun l => length l = noun_topk) noun_scores ->
  Forall (fun l => length l = verb_topk) verb_scores ->
  length noun_scores = length verb_scores ->
  (idx < length noun_scores * (verb_topk * noun_topk))%nat ->
  let '(pt, n, v) := decompose idx in
  (pt < length noun_scores /\ n < noun_topk /\ v < verb_topk)%nat /\
  nth idx (flat_scores noun_scores verb_scores) 0
    = at2 0 noun_scores pt n * at2 0 verb_scores pt v.
Proof.
  intros Hn Hv Hlen Hidx. unfold decompose, flat_scores, at2.
  assert (Hk : (verb_topk * noun_topk)%nat = 363%nat) by reflexivity.
  assert (Hpt : (idx / (verb_topk * noun_topk) < length noun_scores)%nat).
  { apply Nat.Div0.div_lt_upper_bound. lia. }
  assert (Hr : (idx mod (verb_topk * noun_topk) < verb_topk * noun_topk)%nat).
  { apply Nat.mod_upper_bound. rewrite Hk. lia. }
  split.
  { split; [auto|]. split.
    - apply Nat.Div0.div_lt_upper_bound. rewrite Nat.mul_comm. exact Hr.
    - apply Nat.mod_upper_bound. unfold verb_topk. lia. }
  rewrite (nth_concat_uniform (verb_topk * noun_topk)).
  - set (p := (idx / (verb_topk * noun_topk))%nat).
    set (r := (idx mod (verb_topk * noun_topk))%nat).
    assert (Hc : (p < length (combine noun_scores verb_scores))%nat)
      by (rewrite length_combine; lia).
    rewrite (nth_map_lt _ _ _ _ ([], [])) by auto.
    rewrite combine_nth by auto.
    assert (Hnp : length (nth p noun_scores []) = noun_topk).
    { rewrite Forall_forall in Hn. apply Hn. apply nth_In. lia. }
    assert (Hvp : length (nth p verb_scores []) = verb_topk).
    { rewrite Forall_forall in Hv. apply Hv. apply nth_In. lia. }
    apply outer_block_nth; auto. rewrite Hnp. lia.
  - apply Forall_forall. intros b Hb.
    apply in_map_iff in Hb as ([ns vs] & <- & Hin).
    pose proof (in_combine_l _ _ _ _ Hin) as H1.
    pose proof (in_combine_r _ _ _ _ Hin) as H2.
    rewrite Forall_forall in Hn, Hv.
    unfold outer_block. rewrite length_concat, map_map.
    erewrite map_ext by (intro; apply length_map).
    rewrite (Hv _ H2). rewrite <- (Hn _ H1).
    generalize (length vs). intros _. clear.
    induction ns as [|x ns IH]; simpl; [reflexivity|]. rewrite IH.
    unfold verb_topk in *. lia.
  - rewrite length_map, length_combine. lia.
Qed.


Lemma decompose_inverts_flatten_witness :
  (Forall (fun l => length l = noun_topk) [ramp 33] /\
   Forall (fun l => length l = verb_topk) [ramp 11] /\
   length [ramp 33] = length [ramp 11] /\
   (50 < length [ramp 33] * (verb_topk * noun_topk))%nat) /\
  let '(pt, n, v) := decompose 50 in
  (pt < length [ramp 33] /\ n < noun_topk /\ v < verb_topk)%nat /\
  nth 50 (flat_scores [ramp 33] [ramp 11]) 0
    = at2 0 [ramp 33] pt n * at2 0 [ramp 11] pt v.
Proof.
  split; [repeat split; repeat constructor; vm_compute; lia|].
  apply decompose_inverts_flatten; repeat constructor; vm_compute; lia.
Defined.


Section Confidence.
Local Open Scope R_scope.

Lemma exp_mono_le x y : x <= y -> exp x <= exp y.
Proof.
  intros H. destruct (Rle_lt_or_eq_dec _ _ H) as [Hl|<-].
  - left. apply exp_increasing. exact Hl.
  - right. reflexivity.
Qed.

Lemma pow2_pos (k : Z) : (0 <= k)%Z -> 0 < IZR (2 ^ k).
Proof. intros Hk. apply IZR_lt. apply Z.pow_pos_nonneg; lia. Qed.

(** The binary32 values used below: [m / 2^k] with [|m| < 2^24], [k <= 149]. *)
Lemma is_f32_scaled (m k : Z) :
  (Z.abs m < 2 ^ 24)%Z -> (0 <= k <= 149)%Z -> is_f32 (IZR m / IZR (2 ^ k)).
Proof.
  intros Hm Hk. exists m, (149 - k)%Z. split; [exact Hm|]. split; [lia|].
  replace (2 ^ 149)%Z with (2 ^ (149 - k) * 2 ^ k)%Z
    by (rewrite <- Z.pow_add_r by lia; f_equal; lia).
  pose proof (pow2_pos k ltac:(lia)). pose proof (pow2_pos (149 - k) ltac:(lia)).
  rewrite !mult_IZR. field. lra.
Qed.

Lemma is_f32_int (m : Z) : (Z.abs m < 2 ^ 24)%Z -> is_f32 (IZR m).
Proof.
  intros Hm. replace (IZR m) with (IZR m / IZR (2 ^ 0)) by (simpl; field).
  apply is_f32_scaled; lia.
Qed.

Lemma is_f32_0 : is_f32 0.
Proof. apply (is_f32_int 0). reflexivity. Qed.

Lemma is_f32_1 : is_f32 1.
Proof. apply (is_f32_int 1). reflexivity. Qed.

Lemma is_f32_half : is_f32 (1 / 2).
Proof. apply (is_f32_scaled 1 1); [reflexivity | lia]. Qed.

(** A nonzero binary32 value is at least the smallest subnormal [2^-149]. *)
Lemma f32_nonzero_ge v : is_f32 v -> v <> 0 -> / IZR (2 ^ 149) <= Rabs v.
Proof.
  intros (m & e & Hm & He & ->) Hv.
  pose proof (pow2_pos 149 ltac:(lia)) as HP.
  assert (HN : (m * 2 ^ e)%Z <> 0%Z)
    by (intros HN; apply Hv; rewrite HN; unfold Rdiv; ring).
  unfold Rdiv. rewrite Rabs_mult, Rabs_inv, Rabs_Zabs, (Rabs_pos_eq (IZR (2 ^ 149))) by lra.
  assert (H1 : 1 <= IZR (Z.abs (m * 2 ^ e))) by (apply IZR_le; lia).
  pose proof (Rinv_0_lt_compat _ HP). nra.
Qed.

(** A binary32 value of at least [1/4] is a multiple of [2^-25]. *)
Lemma f32_ge_quarter v : is_f32 v -> 1 / 4 <= v -> exists N, v = IZR N / IZR (2 ^ 25).
Proof.
  intros (m & e & Hm & He & ->) Hv.
  destruct (Z_le_gt_dec 124 e) as [Hbig|Hsmall].
  - exists (m * 2 ^ (e - 124))%Z.
    replace (2 ^ e)%Z with (2 ^ (e - 124) * 2 ^ 124)%Z
      by (rewrite <- Z.pow_add_r by lia; f_equal; lia).
    replace (2 ^ 149)%Z with (2 ^ 124 * 2 ^ 25)%Z by reflexivity.
    pose proof (pow2_pos 124 ltac:(lia)). pose proof (pow2_pos 25 ltac:(lia)).
    rewrite !mult_IZR. field. lra.
  - exfalso.
    assert (Hpe : (0 < 2 ^ e <= 2 ^ 123)%Z)
      by (split; [apply Z.pow_pos_nonneg | apply Z.pow_le_mono_r]; lia).
    assert (HZ : (m * 2 ^ e < 2 ^ 147)%Z).
    { replace (2 ^ 147)%Z with (2 ^ 24 * 2 ^ 123)%Z by reflexivity.
      assert (m <= 2 ^ 24 - 1)%Z by lia. nia. }
    apply IZR_lt in HZ.
    replace (IZR (2 ^ 149)) with (4 * IZR (2 ^ 147)) in Hv
      by (rewrite <- mult_IZR; reflexivity).
    pose proof (pow2_pos 147 ltac:(lia)) as HP.
    apply (Rmult_le_compat_r (4 * IZR (2 ^ 147))) in Hv; [|lra].
    replace (IZR (m * 2 ^ e) / (4 * IZR (2 ^ 147)) * (4 * IZR (2 ^ 147)))
      with (IZR (m * 2 ^ e)) in Hv by (field; lra).
    lra.
Qed.

Lemma round32_exact x r : is_f32 x -> round32 x r -> r = x.
Proof.
  intros Hx [_ Hr]. specialize (Hr x Hx).
  rewrite Rminus_diag, Rabs_R0 in Hr.
  pose proof (Rle_abs (r - x)). pose proof (Rle_abs (- (r - x))).
  rewrite Rabs_Ropp in H0. lra.
Qed.

Lemma round32_self x : is_f32 x -> round32 x x.
Proof.
  intros Hx. split; [exact Hx|]. intros f _.
  rewrite Rminus_diag, Rabs_R0. apply Rabs_pos.
Qed.

(** Rounding never crosses a binary32 value. *)
Lemma round32_le f x r : is_f32 f -> x <= f -> round32 x r -> r <= f.
Proof.
  intros Hf Hx [_ Hr]. specialize (Hr f Hf).
  rewrite (Rabs_pos_eq (f - x)) in Hr by lra.
  pose proof (Rle_abs (r - x)). lra.
Qed.

Lemma round32_ge f x r : is_f32 f -> f <= x -> round32 x r -> f <= r.
Proof.
  intros Hf Hx [_ Hr]. specialize (Hr f Hf).
  rewrite (Rabs_left1 (f - x)) in Hr by lra.
  pose proof (Rle_abs (- (r - x))). rewrite Rabs_Ropp in H. lra.
Qed.

(** Below half the smallest subnormal, the nearest binary32 value is 0. *)
Lemma round32_tiny x : 0 <= x <= / IZR (2 ^ 149) / 2 -> round32 x 0.
Proof.
  intros Hx. split; [exact is_f32_0|]. intros f Hf.
  rewrite Rminus_0_l, Rabs_Ropp, (Rabs_pos_eq x) by lra.
  destruct (Req_dec f 0) as [->|Hf0].
  - rewrite Rminus_0_l, Rabs_Ropp, (Rabs_pos_eq x) by lra. lra.
  - pose proof (f32_nonzero_ge f Hf Hf0).
    pose proof (Rabs_triang_inv f x). rewrite (Rabs_pos_eq x) in H0 by lra. lra.
Qed.

Lemma round32_tiny_zero x r : 0 <= x < / IZR (2 ^ 149) / 2 -> round32 x r -> r = 0.
Proof.
  intros Hx Hr. destruct (Req_dec r 0) as [|Hr0]; [assumption|exfalso].
  destruct Hr as [Hrf Hr]. specialize (Hr 0 is_f32_0).
  pose proof (f32_nonzero_ge r Hrf Hr0).
  pose proof (Rabs_triang_inv r x). rewrite (Rabs_pos_eq x) in H0 by lra.
  rewrite Rminus_0_l, Rabs_Ropp, (Rabs_pos_eq x) in Hr by lra. lra.
Qed.

(** [exp (-n) <= 2^-n], from [exp 1 > 2]. *)
Lemma exp_neg_nat n : exp (- INR n) <= (/ 2) ^ n.
Proof.
  induction n as [|n IH].
  - simpl. rewrite Ropp_0, exp_0. lra.
  - rewrite S_INR, Ropp_plus_distr, exp_plus. simpl.
    assert (He : exp (Ropp 1) <= / 2).
    { rewrite exp_Ropp. apply Rinv_le_contravar; [lra|].
      pose proof (exp_ineq1 1 ltac:(lra)). lra. }
    pose proof (exp_pos (- INR n)). pose proof (exp_pos (Ropp 1)).
    rewrite Rmult_comm. apply Rmult_le_compat; lra.
Qed.

Lemma exp_neg_242_tiny : exp (-242) < / IZR (2 ^ 149) / 2.
Proof.
  replace (-242) with (- INR 242) by (rewrite INR_IZR_INZ; reflexivity).
  eapply Rle_lt_trans; [apply exp_neg_nat|].
  rewrite pow_inv. replace (2 ^ 242) with (IZR (2 ^ 242))
    by (rewrite (pow_IZR 2 242); reflexivity).
  replace (/ IZR (2 ^ 149) / 2) with (/ IZR (2 ^ 150))
    by (replace (2 ^ 150)%Z with (2 ^ 149 * 2)%Z by reflexivity;
        rewrite mult_IZR; pose proof (pow2_pos 149 ltac:(lia)); field; lra).
  apply Rinv_lt_contravar.
  - apply Rmult_lt_0_compat; apply pow2_pos; lia.
  - apply IZR_lt. reflexivity.
Qed.

Lemma sigmoid_0 : sigmoid 0 = 1 / 2.
Proof. unfold sigmoid. rewrite Ropp_0, exp_0. field. Qed.

Lemma sigmoid_le x y : x <= y -> sigmoid x <= sigmoid y.
Proof.
  intros H. unfold sigmoid. apply Rinv_le_contravar.
  - pose proof (exp_pos (- y)). lra.
  - apply Rplus_le_compat_l, exp_mono_le. lra.
Qed.

(** The float32 Gaussian lies in [[0, 1]]. *)
Lemma gauss32_range sigma c g : gauss32 sigma c g -> 0 <= g <= 1.
Proof.
  intros (den & sq & q & Hd & Hs & Hq & Hg).
  assert (Hd0 : 0 <= den) by (apply (round32_ge 0 (2 * sigma * sigma) den is_f32_0 ltac:(nra) Hd)).
  assert (Hs0 : 0 <= sq) by (apply (round32_ge 0 (c * c) sq is_f32_0 ltac:(nra) Hs)).
  assert (Hx : - sq / den <= 0).
  { destruct (Req_dec den 0) as [->|Hn].
    - unfold Rdiv. rewrite Rinv_0. lra.
    - assert (0 < / den) by (apply Rinv_0_lt_compat; lra).
      unfold Rdiv. nra. }
  assert (Hq0 : q <= 0) by (apply (round32_le 0 _ _ is_f32_0 Hx Hq)).
  split.
  - apply (round32_ge 0 (exp q) g is_f32_0 (Rlt_le _ _ (exp_pos q)) Hg).
  - apply (round32_le 1 (exp q) g is_f32_1); [|exact Hg].
    rewrite <- exp_0. apply exp_mono_le. exact Hq0.
Qed.

(** Each float32 boundary confidence lies in [[1/2, sigmoid 1]] up to the
    rounding: at least [1/2] and at most any binary32 value [>= sigmoid 1]. *)
Lemma conf32_range sigma c s :
  conf32 sigma c s -> 1 / 2 <= s /\ forall f, is_f32 f -> sigmoid 1 <= f -> s <= f.
Proof.
  intros (g & Hg & Hs). apply gauss32_range in Hg as [Hg0 Hg1]. split.
  - eapply (round32_ge (1 / 2) _ _ is_f32_half); [|exact Hs].
    rewrite <- sigmoid_0. apply sigmoid_le. exact Hg0.
  - intros f Hf Hf1. eapply (round32_le f _ _ Hf); [|exact Hs].
    apply (Rle_trans _ (sigmoid 1)); [apply sigmoid_le|]; assumption.
Qed.

Lemma Forall2_Forall_r {A B} (P : A -> B -> Prop) l1 l2 :
  Forall2 P l1 l2 -> Forall (fun y => exists x, In x l1 /\ P x y) l2.
Proof.
  induction 1 as [|x y l1 l2 Hxy _ IH]; constructor.
  - exists x. split; [left; reflexivity | exact Hxy].
  - eapply Forall_impl; [|exact IH]. intros y' (x' & Hx' & Hp).
    exists x'. split; [right; exact Hx' | exact Hp].
Qed.

Lemma clamp_index_lt n x : (0 < n)%nat -> (clamp_index n x < n)%nat.
Proof. intros H. unfold clamp_index. lia. Qed.

(** Without padding ([len(pts_i) <= len(conf)]) every gathered value is the
    float32 confidence of some entry of the level. *)
Lemma boundary_values32_conf sigma out offs sign num_pts vs :
  (num_pts <= length out)%nat -> boundary_values32 sigma out offs sign num_pts vs ->
  length vs = length out /\ Forall (fun v => exists c, conf32 sigma c v) vs.
Proof.
  intros Hn (conf & pos & Hc & Hp & ->).
  pose proof (Forall2_length Hc) as Hlc. pose proof (Forall2_length Hp) as Hlp.
  rewrite length_seq in Hlp.
  unfold pad_zeros. rewrite length_map, <- Hlp.
  replace (length conf <? num_pts)%nat with false by (symmetry; apply Nat.ltb_ge; lia).
  split; [rewrite length_map; lia|].
  apply Forall2_Forall_r in Hc. rewrite Forall_forall in Hc.
  apply Forall_forall. intros v Hv.
  apply in_map_iff in Hv as (p & <- & Hpin).
  assert (Hi : (clamp_index (length conf) p < length conf)%nat).
  { apply clamp_index_lt. destruct pos; [contradiction | simpl in Hlp; lia]. }
  destruct (Hc _ (nth_In conf 0 Hi)) as (c & _ & Hcv). exists c. exact Hcv.
Qed.

(** The Python float [0.3] converted to binary32 is [f32_0_3]. *)
Lemma round32_py_0_3 : round32 py_0_3 f32_0_3.
Proof.
  split; [apply is_f32_scaled; [reflexivity | lia]|].
  intros f Hf. unfold f32_0_3, py_0_3. change (2 ^ 25)%Z with 33554432%Z.
  destruct (Rle_lt_dec (1 / 4) f) as [Hq|Hq].
  - destruct (f32_ge_quarter f Hf Hq) as [N ->]. change (2 ^ 25)%Z with 33554432%Z.
    destruct (Z_le_gt_dec 10066330 N) as [HN|HN].
    + apply IZR_le in HN.
      rewrite !Rabs_pos_eq; lra.
    + assert (HN' : (N <= 10066329)%Z) by lia. apply IZR_le in HN'.
      rewrite Rabs_pos_eq by lra. rewrite Rabs_left by lra. lra.
  - rewrite Rabs_pos_eq by lra. rewrite Rabs_left by lra. lra.
Qed.

(** Any binary32 rounding of [0.3] is at least [f32_0_3]. *)
Lemma round32_py_0_3_ge k : round32 py_0_3 k -> f32_0_3 <= k.
Proof.
  intros Hk. pose proof (round32_py_0_3) as [Hf _].
  destruct Hk as [Hkf Hk]. specialize (Hk _ Hf).
  unfold f32_0_3, py_0_3 in *. change (2 ^ 25)%Z with 33554432%Z in *.
  rewrite (Rabs_pos_eq (IZR 10066330 / IZR 33554432 - 5404319552844595 / 18014398509481984))
    in Hk by lra.
  pose proof (Rle_abs (- (k - 5404319552844595 / 18014398509481984))) as Ha.
  rewrite Rabs_Ropp in Ha.
  destruct (f32_ge_quarter k Hkf ltac:(lra)) as [N ->].
  change (2 ^ 25)%Z with 33554432%Z.
  destruct (Z_le_gt_dec 10066330 N) as [HN|HN].
  - apply IZR_le in HN. lra.
  - assert (HN' : (N <= 10066329)%Z) by lia. apply IZR_le in HN'. lra.
Qed.

Lemma f32_0_3_gt : 3 / 10 < f32_0_3.
Proof. unfold f32_0_3. change (2 ^ 25)%Z with 33554432%Z. lra. Qed.

Lemma evidence32_ge a b v :
  1 / 2 <= a -> 1 / 2 <= b -> evidence32 a b v -> f32_0_3 <= v.
Proof.
  intros Ha Hb (k & t & Hk & Ht & Hv).
  apply round32_py_0_3_ge in Hk.
  assert (Ht1 : 1 <= t) by (apply (round32_ge 1 (a + b) t is_f32_1 ltac:(lra) Ht)).
  pose proof f32_0_3_gt.
  apply (round32_ge f32_0_3 (k * t) v (proj1 round32_py_0_3)); [nra | exact Hv].
Qed.

Lemma gauss32_121 g : gauss32 (11 / 2) 121 g <-> g = 0.
Proof.
  assert (Hden : 2 * (11 / 2) * (11 / 2) = 121 / 2) by field.
  assert (Hsq : 121 * 121 = 14641) by lra.
  assert (Hq : Ropp 14641 / (121 / 2) = -242) by field.
  assert (H121 : is_f32 (121 / 2)) by (apply (is_f32_scaled 121 1); [reflexivity | lia]).
  assert (H14641 : is_f32 14641) by (apply (is_f32_int 14641); reflexivity).
  assert (H242 : is_f32 (-242)) by (apply (is_f32_int (-242)); reflexivity).
  assert (Htiny : 0 <= exp (-242) < / IZR (2 ^ 149) / 2)
    by (split; [left; apply exp_pos | apply exp_neg_242_tiny]).
  split.
  - intros (den & sq & q & Hd & Hs & Hr & Hg).
    rewrite Hden in Hd. apply round32_exact in Hd; [subst den | exact H121].
    rewrite Hsq in Hs. apply round32_exact in Hs; [subst sq | exact H14641].
    rewrite Hq in Hr. apply round32_exact in Hr; [subst q | exact H242].
    exact (round32_tiny_zero _ _ Htiny Hg).
  - intros ->. exists (121 / 2), 14641, (-242).
    split; [rewrite Hden; apply round32_self, H121|].
    split; [rewrite Hsq; apply round32_self, H14641|].
    split; [rewrite Hq; apply round32_self, H242|].
    apply round32_tiny. lra.
Qed.

Lemma conf32_121 s : conf32 (11 / 2) 121 s <-> s = 1 / 2.
Proof.
  split.
  - intros (g & Hg & Hs). apply gauss32_121 in Hg. subst g.
    rewrite sigmoid_0 in Hs. exact (round32_exact _ _ is_f32_half Hs).
  - intros ->. exists 0. split; [apply gauss32_121; reflexivity|].
    rewrite sigmoid_0. apply round32_self, is_f32_half.
Qed.

Lemma boundary_values32_121 sign : boundary_values32 (11 / 2) [121] [0] sign 1 [1 / 2].
Proof.
  exists [1 / 2], [0%R]. split.
  { constructor; [apply conf32_121; reflexivity | constructor]. }
  split.
  - simpl. constructor; [|constructor]. exists 0. split.
    + apply round32_self, is_f32_0.
    + replace (0 + sign * 0) with 0 by ring. apply round32_self, is_f32_0.
  - assert (Hci : clamp_index (length [1 / 2]) 0 = 0%nat)
      by (unfold clamp_index; simpl length; lia).
    unfold pad_zeros. cbn [map]. rewrite Hci. reflexivity.
Qed.




End Confidence.

End DecodeClaims.

(** * Facts about the full GIoU loss *)

Module GIoULossFacts.
Import GIoU GIoULoss AssignerFacts.

Lemma loss_offset_miouk i t : loss_offset i t = 1 - miouk i t.
Proof. destruct i, t. reflexivity. Qed.

(** With a shared center, the smallest enclosing segment is the union. *)
Lemma enclosing_is_union lp rp lg rg :
  Qmax lp lg + Qmax rp rg == (lp + rp) + (lg + rg) - (Qmin rp rg + Qmin lp lg).
Proof. qminmax_lra. Qed.

Lemma loss_offset_iou lp rp lg rg :
  loss_offset (lp, rp) (lg, rg)
  == 1 - (Qmin rp rg + Qmin lp lg) / Qmax ((lp + rp) + (lg + rg) - (Qmin rp rg + Qmin lp lg)) eps.
Proof.
  cbv beta iota zeta delta [loss_offset clamp_min].
  rewrite (enclosing_is_union lp rp lg rg).
  set (U := lp + rp + (lg + rg) - (Qmin rp rg + Qmin lp lg)).
  set (I := Qmin rp rg + Qmin lp lg).
  setoid_replace (U - U) with 0 by ring.
  unfold Qdiv. rewrite Qmult_0_l. ring.
Qed.

Lemma eps_pos : 0 < eps.
Proof. reflexivity. Qed.

Lemma loss_offset_unit lp rp lg rg :
  0 <= lp -> 0 <= rp -> 0 <= lg -> 0 <= rg -> unit_interval (loss_offset (lp, rp) (lg, rg)).
Proof.
  intros H1 H2 H3 H4. unfold unit_interval. rewrite loss_offset_iou.
  set (I := Qmin rp rg + Qmin lp lg).
  set (U := lp + rp + (lg + rg) - I).
  assert (HI : 0 <= I) by (subst I; qminmax_lra).
  assert (HIU : I <= U) by (subst U I; qminmax_lra).
  set (M := Qmax U eps).
  assert (HM : 0 < M) by (pose proof (Q.le_max_r U eps); pose proof eps_pos; subst M; qlra).
  assert (HUM : U <= M) by (apply Q.le_max_l).
  assert (Hd0 : 0 <= I / M) by (apply Qle_shift_div_l; auto; qlra).
  assert (Hd1 : I / M <= 1) by (apply Qle_shift_div_r; auto; qlra).
  split; qlra.
Qed.

Lemma qsum_nonneg l : Forall (fun x => 0 <= x) l -> 0 <= qsum l.
Proof.
  induction 1 as [|x l Hx _ IH]; simpl; [apply Qle_refl|]. qlra.
Qed.

Lemma qsum_zero l : Forall (fun x => x == 0) l -> qsum l == 0.
Proof.
  induction 1 as [|x l Hx _ IH]; simpl; [reflexivity|]. rewrite Hx, IH. reflexivity.
Qed.

Lemma offsets_nonneg_true o :
  offsets_nonneg o = true <-> Forall (fun x => 0 <= fst x /\ 0 <= snd x) o.
Proof.
  unfold offsets_nonneg. rewrite forallb_forall, Forall_forall.
  split; intros H [l r] Hx; specialize (H _ Hx); simpl in *.
  - apply andb_true_iff in H as [H1 H2]. apply Qle_bool_iff in H1, H2. auto.
  - destruct H as [H1 H2]. apply andb_true_iff. split; apply Qle_bool_iff; auto.
Qed.

Lemma offsets_nonneg_false o :
  offsets_nonneg o = false <-> exists x, In x o /\ (fst x < 0 \/ snd x < 0).
Proof.
  split.
  - intros H. destruct (Forall_Exists_dec (fun x => 0 <= fst x /\ 0 <= snd x)) with (l := o)
      as [Hf|He].
    + intros [l r]. simpl. destruct (Qlt_le_dec l 0), (Qlt_le_dec r 0);
        [right; qlra..|left; auto].
    + apply offsets_nonneg_true in Hf. congruence.
    + apply Exists_exists in He as (x & Hx & Hn). exists x. split; auto.
      destruct (Qlt_le_dec (fst x) 0); [left; auto|].
      destruct (Qlt_le_dec (snd x) 0); [right; auto|]. tauto.
  - intros (x & Hx & Hn). destruct (offsets_nonneg o) eqn:E; [|reflexivity].
    apply offsets_nonneg_true in E. rewrite Forall_forall in E.
    specialize (E _ Hx). exfalso. destruct Hn; qlra.
Qed.

Lemma iou_mask_nonneg (miou : list Q) :
  Forall (fun m => 0 <= m <= 1) (map (fun m => if Qltb (1#2) m then 1 else 0) miou).
Proof.
  apply Forall_forall. intros x Hx. apply in_map_iff in Hx as (m & <- & _).
  destruct (Qltb (1#2) m); split; discriminate.
Qed.

End GIoULossFacts.

Module GIoULossExtra.
Import GIoU GIoULoss AssignerFacts GIoULossFacts.

Lemma Qsq_nonneg x : 0 <= x * x.
Proof.
  destruct (Qlt_le_dec x 0) as [H|H].
  - setoid_replace (x * x) with ((- x) * (- x)) by ring.
    apply Qmult_le_0_compat; qlra.
  - apply Qmult_le_0_compat; auto.
Qed.

Lemma Qdiv_nat_nonneg a n : 0 <= a -> 0 <= a / inject_Z (Z.of_nat n).
Proof.
  intros Ha. unfold Qdiv. apply Qmult_le_0_compat; auto.
  apply Qinv_le_0_compat. change 0 with (inject_Z 0). rewrite <- Zle_Qle. lia.
Qed.

Lemma offset_sum_nonneg io to :
  Forall (fun x => 0 <= fst x /\ 0 <= snd x) io ->
  Forall (fun x => 0 <= fst x /\ 0 <= snd x) to ->
  0 <= qsum (map (fun m => 1 - m) (map (fun '(i, t) => miouk i t) (combine io to))).
Proof.
  intros Hi Ht. apply qsum_nonneg, Forall_forall. intros x Hx.
  apply in_map_iff in Hx as (m & <- & Hm). apply in_map_iff in Hm as ([i t] & <- & Hit).
  rewrite <- loss_offset_miouk.
  rewrite Forall_forall in Hi, Ht.
  destruct (Hi _ (in_combine_l _ _ _ _ Hit)), (Ht _ (in_combine_r _ _ _ _ Hit)).
  destruct i, t. apply loss_offset_unit; auto.
Qed.

Lemma masked_sq_sum_nonneg (tgt inp ms : list Q) :
  Forall (fun m => 0 <= m <= 1) ms ->
  0 <= qsum (map (fun '(d, m) => d * m)
              (combine (map (fun '(t, c) => (t - c) * (t - c)) (combine tgt inp)) ms)).
Proof.
  intros Hm. apply qsum_nonneg, Forall_forall. intros x Hx.
  apply in_map_iff in Hx as ([d m] & <- & Hdm).
  rewrite Forall_forall in Hm. destruct (Hm _ (in_combine_r _ _ _ _ Hdm)).
  apply in_combine_l, in_map_iff in Hdm as ([t c] & <- & _).
  apply Qmult_le_0_compat; auto. apply Qsq_nonneg.
Qed.

Lemma action_terms_nonneg (f : Q -> Q) (ia ta ms : list Q) :
  Forall (fun m => 0 <= m <= 1) ms ->
  Forall (fun x => 0 <= x)
    (concat (map (fun a => map (fun '(t, m) => (t - f a) * (t - f a) * m) (combine ta ms)) ia)).
Proof.
  intros Hm. apply Forall_forall. intros x Hx.
  apply in_concat in Hx as (l & Hl & Hx). apply in_map_iff in Hl as (a & <- & _).
  apply in_map_iff in Hx as ([t m] & <- & Htm).
  rewrite Forall_forall in Hm. destruct (Hm _ (in_combine_r _ _ _ _ Htm)).
  apply Qmult_le_0_compat; auto. apply Qsq_nonneg.
Qed.

Lemma iou_mask_zero (miou : list Q) :
  Forall (fun m => m <= 1#2) miou ->
  Forall (fun m => m == 0) (map (fun m => if Qltb (1#2) m then 1 else 0) miou).
Proof.
  intros H. apply Forall_forall. intros x Hx. apply in_map_iff in Hx as (m & <- & Hm).
  rewrite Forall_forall in H. specialize (H _ Hm).
  destruct (Qltb (1#2) m) eqn:E; [|reflexivity].
  apply Qltb_true in E. exfalso. qlra.
Qed.

Lemma masked_sum_zero (ds ms : list Q) :
  Forall (fun m => m == 0) ms -> qsum (map (fun '(d, m) => d * m) (combine ds ms)) == 0.
Proof.
  intros Hm. apply qsum_zero, Forall_forall. intros x Hx.
  apply in_map_iff in Hx as ([d m] & <- & Hdm).
  rewrite Forall_forall in Hm. rewrite (Hm _ (in_combine_r _ _ _ _ Hdm)). ring.
Qed.

Lemma action_terms_zero (f : Q -> Q) (ia ta ms : list Q) :
  Forall (fun m => m == 0) ms ->
  Forall (fun x => x == 0)
    (concat (map (fun a => map (fun '(t, m) => (t - f a) * (t - f a) * m) (combine ta ms)) ia)).
Proof.
  intros Hm. apply Forall_forall. intros x Hx.
  apply in_concat in Hx as (l & Hl & Hx). apply in_map_iff in Hl as (a & <- & _).
  apply in_map_iff in Hx as ([t m] & <- & Htm).
  rewrite Forall_forall in Hm. rewrite (Hm _ (in_combine_r _ _ _ _ Htm)). ring.
Qed.

(** In [ctr_giou_loss_1d] (both extents measured from the same point), the
    smallest enclosing segment always equals the union, so the GIoU penalty
    [(len_c - unionk) / len_c] vanishes and [miouk] is the plain IoU
    [intsctk / max(unionk, eps)]. *)
Theorem giou_penalty_vanishes lp rp lg rg :
  Qmax lp lg + Qmax rp rg == (lp + rp) + (lg + rg) - (Qmin rp rg + Qmin lp lg) /\
  miouk (lp, rp) (lg, rg)
  == (Qmin rp rg + Qmin lp lg) / Qmax ((lp + rp) + (lg + rg) - (Qmin rp rg + Qmin lp lg)) eps.
Proof.
  split; [apply enclosing_is_union|].
  pose proof (loss_offset_iou lp rp lg rg) as H.
  rewrite loss_offset_miouk in H. qlra.
Qed.

(** For non-negative predicted and ground-truth offsets (the function's
    asserted precondition), each [loss_offset] term lies in [[0, 1]]. *)
Theorem loss_offset_in_unit_interval lp rp lg rg :
  0 <= lp -> 0 <= rp -> 0 <= lg -> 0 <= rg ->
  0 <= loss_offset (lp, rp) (lg, rg) <= 1.
Proof. apply loss_offset_unit. Qed.

Lemma loss_offset_in_unit_interval_witness :
  (0 <= 2 /\ 0 <= 1 /\ 0 <= 1 /\ 0 <= 3) /\ 0 <= loss_offset (2, 1) (1, 3) <= 1.
Proof.
  split; [repeat split; discriminate|].
  apply loss_offset_in_unit_interval; discriminate.
Defined.

(** [loss_offset] is symmetric in prediction and ground truth, and invariant
    under swapping the left and right extents of both. *)
Theorem loss_offset_symmetric lp rp lg rg :
  loss_offset (lp, rp) (lg, rg) == loss_offset (lg, rg) (lp, rp) /\
  loss_offset (lp, rp) (lg, rg) == loss_offset (rp, lp) (rg, lg).
Proof.
  rewrite !loss_offset_iou.
  rewrite (Q.min_comm rg rp), (Q.min_comm lg lp).
  setoid_replace (lg + rg + (lp + rp)) with (lp + rp + (lg + rg)) by ring.
  setoid_replace (rp + lp + (rg + lg)) with (lp + rp + (lg + rg)) by ring.
  setoid_replace (Qmin lp lg + Qmin rp rg) with (Qmin rp rg + Qmin lp lg) by ring.
  split; reflexivity.
Qed.

(** [ctr_giou_loss_1d] fails (on one of its two [assert]s) exactly when some
    predicted or ground-truth offset has a negative component. *)
Theorem ctr_giou_loss_1d_asserts ct sg args io ic ia to ts te ta :
  (exists e, ctr_giou_loss_1d ct sg args io ic ia to ts te ta = inl e) <->
  exists o, (In o io \/ In o to) /\ (fst o < 0 \/ snd o < 0).
Proof.
  unfold ctr_giou_loss_1d.
  destruct (offsets_nonneg io) eqn:E1; [destruct (offsets_nonneg to) eqn:E2|]; cbn [negb].
  - split; [intros (e & He); discriminate|].
    intros (o & [Ho|Ho] & Hn).
    + exfalso. apply offsets_nonneg_true in E1. rewrite Forall_forall in E1.
      destruct (E1 _ Ho). destruct Hn; qlra.
    + exfalso. apply offsets_nonneg_true in E2. rewrite Forall_forall in E2.
      destruct (E2 _ Ho). destruct Hn; qlra.
  - split; [|eexists; reflexivity]. intros _.
    apply offsets_nonneg_false in E2 as (o & Ho & Hn). exists o. auto.
  - split; [|eexists; reflexivity]. intros _.
    apply offsets_nonneg_false in E1 as (o & Ho & Hn). exists o. auto.
Qed.

(** With non-negative weights [sigma1] and [loss_weight_boundary_conf], a
    successful call returns a non-negative loss and a non-negative
    actionness loss, whatever the confidence transform and the sigmoid. *)
Theorem ctr_giou_loss_1d_nonneg ct sg args io ic ia to ts te ta loss act :
  0 <= sigma1 args -> 0 <= loss_weight_boundary_conf args ->
  ctr_giou_loss_1d ct sg args io ic ia to ts te ta = inr (loss, act) ->
  0 <= loss /\ 0 <= act.
Proof.
  intros Hs Hw. unfold ctr_giou_loss_1d.
  destruct (offsets_nonneg io) eqn:E1; [|discriminate].
  destruct (offsets_nonneg to) eqn:E2; [|discriminate].
  cbn [negb]. cbv zeta. intros H. injection H as <- <-.
  apply offsets_nonneg_true in E1, E2.
  pose proof (iou_mask_nonneg (map (fun '(i, t) => miouk i t) (combine io to))) as Hm.
  split.
  - pose proof (offset_sum_nonneg io to E1 E2) as H0.
    match goal with
    | |- 0 <= ?a * ?S + ?b * ((1#2) * ?C1 + (1#2) * ?C2) =>
        assert (HC1 : 0 <= C1) by (apply masked_sq_sum_nonneg; exact Hm);
        assert (HC2 : 0 <= C2) by (apply masked_sq_sum_nonneg; exact Hm);
        assert (HA : 0 <= a * S) by (apply Qmult_le_0_compat; auto);
        assert (HB : 0 <= b * ((1#2) * C1 + (1#2) * C2))
          by (apply Qmult_le_0_compat; auto; qlra)
    end.
    qlra.
  - apply Qdiv_nat_nonneg, qsum_nonneg, (action_terms_nonneg sg). exact Hm.
Qed.

Lemma ctr_giou_loss_1d_nonneg_witness :
  (0 <= 1 /\ 0 <= 1 /\
   ctr_giou_loss_1d (fun _ c => c) (fun a => a) (mkGArgs 1 1 1) [(1, 1)] [(0, 0)] [0]
     [(1, 1)] [1] [1] [1]
   = inr (16 # 16, 1)) /\
  (0 <= 16 # 16 /\ 0 <= 1).
Proof.
  split; [repeat split; try discriminate; vm_compute; reflexivity|].
  apply (ctr_giou_loss_1d_nonneg (fun _ c => c) (fun a => a) (mkGArgs 1 1 1) [(1, 1)] [(0, 0)] [0]
           [(1, 1)] [1] [1] [1]); try discriminate. vm_compute. reflexivity.
Defined.

(** Points whose [miouk] (the IoU) is at most [0.5] are masked out of the
    boundary-confidence and actionness terms: if no pair exceeds [0.5], the
    loss is [sigma1] times the summed [loss_offset] and the actionness loss
    is 0. *)
Theorem ctr_giou_loss_1d_low_iou ct sg args io ic ia to ts te ta loss act :
  Forall (fun '(i, t) => miouk i t <= 1#2) (combine io to) ->
  ctr_giou_loss_1d ct sg args io ic ia to ts te ta = inr (loss, act) ->
  loss == sigma1 args * qsum (map (fun '(i, t) => loss_offset i t) (combine io to)) /\
  act == 0.
Proof.
  intros Hlow. unfold ctr_giou_loss_1d.
  destruct (offsets_nonneg io) eqn:E1; [|discriminate].
  destruct (offsets_nonneg to) eqn:E2; [|discriminate].
  cbn [negb]. cbv zeta. intros H. injection H as <- <-.
  assert (Hz : Forall (fun m => m == 0)
      (map (fun m => if Qltb (1#2) m then 1 else 0) (map (fun '(i, t) => miouk i t) (combine io to)))).
  { apply iou_mask_zero. rewrite Forall_map. revert Hlow. apply Forall_impl.
    intros [i t]. auto. }
  assert (Hl : map (fun m => 1 - m) (map (fun '(i, t) => miouk i t) (combine io to))
               = map (fun '(i, t) => loss_offset i t) (combine io to)).
  { rewrite map_map. apply map_ext. intros [i t]. symmetry. apply loss_offset_miouk. }
  split.
  - rewrite Hl. rewrite !(masked_sum_zero _ _ Hz). ring.
  - rewrite (qsum_zero _ (action_terms_zero sg _ _ _ Hz)). unfold Qdiv. ring.
Qed.

Lemma ctr_giou_loss_1d_low_iou_witness :
  (Forall (fun '(i, t) => miouk i t <= 1#2) (combine [(1, 1)] [(3, 3)]) /\
   ctr_giou_loss_1d (fun _ c => c) (fun a => a) (mkGArgs 1 1 1) [(1, 1)] [(0, 0)] [0]
     [(3, 3)] [1] [1] [1]
   = inr (96 # 144, 0)) /\
  (96 # 144 == 1 * qsum (map (fun '(i, t) => GIoU.loss_offset i t) (combine [(1, 1)] [(3, 3)])) /\
   0 == 0).
Proof.
  split; [split; [repeat constructor; discriminate | vm_compute; reflexivity]|].
  apply (ctr_giou_loss_1d_low_iou (fun _ c => c) (fun a => a) (mkGArgs 1 1 1) [(1, 1)] [(0, 0)] [0]
           [(3, 3)] [1] [1] [1]); [repeat constructor; discriminate | vm_compute; reflexivity].
Defined.

End GIoULossExtra.

(** * Facts about the classification targets and the focal loss *)

Module FocalExtra.
Import Decode Focal.

Lemma one_hot_smooth_length C ls c :
  length (Losses.one_hot_smooth C ls c) = Z.to_nat C.
Proof. unfold Losses.one_hot_smooth. rewrite !length_map, length_seq. reflexivity. Qed.

Lemma one_hot_smooth_in C ls c x :
  In x (Losses.one_hot_smooth C ls c) ->
  exists k, (0 <= k < C)%Z /\ x = (if Z.eqb c k then 1 else 0) * (1 - ls) + ls / inject_Z (C + 1).
Proof.
  unfold Losses.one_hot_smooth. intros Hx.
  apply in_map_iff in Hx as (k & <- & Hk). apply in_map_iff in Hk as (n & <- & Hn).
  apply in_seq in Hn. exists (Z.of_nat n). split; [lia | reflexivity].
Qed.

Lemma smooth_share C ls :
  (0 <= C)%Z -> 0 <= ls -> 0 <= ls / inject_Z (C + 1) <= ls.
Proof.
  intros HC Hls.
  assert (HD : 1 <= inject_Z (C + 1)) by (change 1 with (inject_Z 1); rewrite <- Zle_Qle; lia).
  assert (HD0 : 0 < inject_Z (C + 1)) by qlra.
  split.
  - apply Qle_shift_div_l; [exact HD0|]. rewrite Qmult_0_l. exact Hls.
  - apply Qle_shift_div_r; [exact HD0|].
    assert (0 <= ls * (inject_Z (C + 1) - 1)) by (apply Qmult_le_0_compat; qlra).
    setoid_replace (ls * inject_Z (C + 1)) with (ls + ls * (inject_Z (C + 1) - 1)) by ring.
    qlra.
Qed.

Lemma one_hot_smooth_unit C ls c :
  (0 <= C)%Z -> 0 <= ls <= 1 -> Forall unit_interval (Losses.one_hot_smooth C ls c).
Proof.
  intros HC [H0 H1]. apply Forall_forall. intros x Hx.
  apply one_hot_smooth_in in Hx as (k & _ & ->).
  pose proof (smooth_share C ls HC H0). unfold unit_interval.
  destruct (Z.eqb c k); split; qlra.
Qed.

(** The smoothed one-hot target row of [losses] (one-hot over [C + 1]
    classes, background column dropped, then [* (1 - ls) + ls / (C + 1)]),
    for a label [c] that [F.one_hot(..., C + 1)] accepts ([0 <= c <= C]),
    has [C] entries, all in [[0, 1]] for [0 <= ls <= 1]; the background
    label [c = C] gives the uniform row [ls / (C + 1)], and a label [c] in
    [[0, C)] gives [1 - ls + ls / (C + 1)] at position [c] and
    [ls / (C + 1)] at every other position. *)
Theorem one_hot_smooth_rows C ls c :
  (0 <= C)%Z -> 0 <= ls <= 1 -> (0 <= c <= C)%Z ->
  length (Losses.one_hot_smooth C ls c) = Z.to_nat C /\
  Forall unit_interval (Losses.one_hot_smooth C ls c) /\
  (c = C ->
     Forall (fun x => x == ls / inject_Z (C + 1)) (Losses.one_hot_smooth C ls c)) /\
  ((c < C)%Z ->
     nth (Z.to_nat c) (Losses.one_hot_smooth C ls c) 0 == 1 - ls + ls / inject_Z (C + 1) /\
     (forall k, k <> Z.to_nat c -> (k < Z.to_nat C)%nat ->
        nth k (Losses.one_hot_smooth C ls c) 0 == ls / inject_Z (C + 1))).
Proof.
  intros HC Hls Hc. split; [apply one_hot_smooth_length|].
  split; [apply one_hot_smooth_unit; auto|]. split.
  - intros ->. apply Forall_forall. intros x Hx.
    apply one_hot_smooth_in in Hx as (k & Hk & ->).
    replace (Z.eqb C k) with false by (symmetry; apply Z.eqb_neq; lia). ring.
  - intros HcC. unfold Losses.one_hot_smooth. rewrite map_map. split.
    + rewrite (DecodeClaims.nth_map_lt _ _ _ _ 0%nat) by (rewrite length_seq; lia).
      rewrite seq_nth by lia. rewrite Nat.add_0_l, Z2Nat.id by lia.
      rewrite Z.eqb_refl. ring.
    + intros k Hk HkC.
      rewrite (DecodeClaims.nth_map_lt _ _ _ _ 0%nat) by (rewrite length_seq; lia).
      rewrite seq_nth by lia. rewrite Nat.add_0_l.
      replace (Z.eqb c (Z.of_nat k)) with false by (symmetry; apply Z.eqb_neq; lia). ring.
Qed.

Lemma one_hot_smooth_rows_witness :
  ((0 <= 3)%Z /\ 0 <= 1#10 <= 1 /\ (0 <= 1 <= 3)%Z) /\
  length (Losses.one_hot_smooth 3 (1#10) 1) = Z.to_nat 3 /\
  Forall unit_interval (Losses.one_hot_smooth 3 (1#10) 1) /\
  (1%Z = 3%Z ->
     Forall (fun x => x == (1#10) / inject_Z (3 + 1)) (Losses.one_hot_smooth 3 (1#10) 1)) /\
  ((1 < 3)%Z ->
     nth (Z.to_nat 1) (Losses.one_hot_smooth 3 (1#10) 1) 0 == 1 - (1#10) + (1#10) / inject_Z (3 + 1) /\
     (forall k, k <> Z.to_nat 1 -> (k < Z.to_nat 3)%nat ->
        nth k (Losses.one_hot_smooth 3 (1#10) 1) 0 == (1#10) / inject_Z (3 + 1))).
Proof.
  split; [split; [lia | split; [split; discriminate | lia]]|].
  apply one_hot_smooth_rows; [lia | split; discriminate | lia].
Defined.

Local Open Scope R_scope.

Lemma sigmoid_in_01 x : 0 < sigmoid x < 1.
Proof.
  unfold sigmoid. pose proof (exp_pos (- x)). split.
  - apply Rinv_0_lt_compat. lra.
  - rewrite <- Rinv_1. apply Rinv_lt_contravar; [rewrite Rmult_1_l|]; lra.
Qed.

Lemma ln_neg x : 0 < x < 1 -> ln x < 0.
Proof. intros [H0 H1]. rewrite <- ln_1. apply ln_increasing; lra. Qed.

Lemma bce_nonneg x t : 0 <= t <= 1 -> 0 <= bce_with_logits x t.
Proof.
  intros Ht. unfold bce_with_logits. pose proof (sigmoid_in_01 x) as Hs.
  assert (H1 : ln (sigmoid x) < 0) by (apply ln_neg; lra).
  assert (H2 : ln (1 - sigmoid x) < 0) by (apply ln_neg; lra).
  nra.
Qed.

Lemma focal_elem_nonneg alpha x t :
  alpha <= 1 -> 0 <= t <= 1 -> 0 <= focal_elem alpha x t.
Proof.
  intros Ha Ht. unfold focal_elem. cbv zeta.
  pose proof (bce_nonneg x t Ht) as Hb.
  assert (Hl : 0 <= bce_with_logits x t
                    * (1 - (sigmoid x * t + (1 - sigmoid x) * (1 - t))) ^ 2)
    by (apply Rmult_le_pos; [auto | apply pow2_ge_0]).
  destruct (Rle_dec 0 alpha); [|exact Hl].
  apply Rmult_le_pos; [nra | exact Hl].
Qed.

Lemma rsum_nonneg l : Forall (fun x => 0 <= x) l -> 0 <= rsum l.
Proof. induction 1; simpl; lra. Qed.

Lemma focal_sum_nonneg alpha inputs targets :
  alpha <= 1 -> Forall (Forall (fun t => 0 <= t <= 1)) targets ->
  0 <= sigmoid_focal_loss alpha inputs targets.
Proof.
  intros Ha Ht. unfold sigmoid_focal_loss. apply rsum_nonneg, Forall_forall.
  intros y Hy. apply in_map_iff in Hy as ([xs ts] & <- & Hxt).
  rewrite Forall_forall in Ht. specialize (Ht _ (in_combine_r _ _ _ _ Hxt)).
  apply rsum_nonneg, Forall_forall. intros z Hz.
  apply in_map_iff in Hz as ([x t] & <- & Hx).
  rewrite Forall_forall in Ht. apply focal_elem_nonneg; auto.
  apply Ht. eapply in_combine_r; eauto.
Qed.

Lemma Q2R_unit q : unit_interval q -> 0 <= Q2R q <= 1.
Proof.
  intros [H0 H1]. apply Qle_Rle in H0, H1.
  replace (Q2R 0) with 0 in H0 by (unfold Q2R; simpl; field).
  replace (Q2R 1) with 1 in H1 by (unfold Q2R; simpl; field).
  lra.
Qed.

(** The classification terms of [losses] are never negative: with the
    default [alpha = 0.25], [sigmoid_focal_loss] (reduction='sum') of any
    logits against smoothed one-hot targets ([0 <= ls <= 1], [C >= 0]
    classes) is non-negative. *)
Theorem focal_loss_smoothed_nonneg C ls inputs labels :
  (0 <= C)%Z -> (0 <= ls <= 1)%Q ->
  0 <= sigmoid_focal_loss alpha_default inputs
         (map (fun c => map Q2R (Losses.one_hot_smooth C ls c)) labels).
Proof.
  intros HC Hls. apply focal_sum_nonneg; [unfold alpha_default; lra|].
  apply Forall_forall. intros row Hrow. apply in_map_iff in Hrow as (c & <- & _).
  apply Forall_forall. intros y Hy. apply in_map_iff in Hy as (q & <- & Hq).
  apply Q2R_unit. pose proof (one_hot_smooth_unit C ls c HC Hls) as Hu.
  rewrite Forall_forall in Hu. auto.
Qed.

Lemma focal_loss_smoothed_nonneg_witness :
  ((0 <= 97)%Z /\ (0 <= 1#10 <= 1)%Q) /\
  0 <= sigmoid_focal_loss alpha_default [[1; -2]]
         (map (fun c => map Q2R (Losses.one_hot_smooth 97 (1#10) c)) [3%Z]).
Proof.
  split; [split; [lia | split; discriminate]|].
  apply focal_loss_smoothed_nonneg; [lia | split; discriminate].
Defined.

End FocalExtra.

(** * Facts about the overlap ratios and the shapes of the targets *)

Module OverlapExtra.
Import Assigner Overlap AssignerFacts.

(** [ioa_with_anchors] of an anchor of positive length is in [[0, 1]], and
    is 1 when the box covers the anchor. *)
Theorem ioa_with_anchors_range amin amax bmin bmax :
  amin < amax ->
  0 <= ioa_with_anchors amin amax bmin bmax <= 1 /\
  (bmin <= amin -> amax <= bmax -> ioa_with_anchors amin amax bmin bmax == 1).
Proof.
  intros H. unfold ioa_with_anchors.
  assert (Hi0 : 0 <= Qmax (Qmin amax bmax - Qmax amin bmin) 0) by (apply Q.le_max_r).
  assert (Hi1 : Qmax (Qmin amax bmax - Qmax amin bmin) 0 <= amax - amin) by qminmax_lra.
  assert (HL : 0 < amax - amin) by qlra.
  split; [split|].
  - apply Qle_shift_div_l; [exact HL|]. rewrite Qmult_0_l. exact Hi0.
  - apply Qle_shift_div_r; [exact HL|]. qlra.
  - intros H1 H2.
    assert (He : Qmax (Qmin amax bmax - Qmax amin bmin) 0 == amax - amin) by qminmax_lra.
    unfold Qdiv. rewrite He. apply Qmult_inv_r. intro Hz. qlra.
Qed.

Lemma ioa_with_anchors_range_witness :
  0 < 1 /\ 0 <= ioa_with_anchors 0 1 (1#2) 3 <= 1 /\
  ((1#2) <= 0 -> 1 <= 3 -> ioa_with_anchors 0 1 (1#2) 3 == 1).
Proof. split; [reflexivity|]. apply ioa_with_anchors_range. reflexivity. Defined.

(** [iou_with_anchors] of an anchor of positive length and a box of
    non-negative length is in [[0, 1]], does not depend on which of the two
    is the anchor, and is 1 for identical intervals. *)
Theorem iou_with_anchors_range amin amax bmin bmax :
  amin < amax -> bmin <= bmax ->
  0 <= iou_with_anchors amin amax bmin bmax <= 1 /\
  iou_with_anchors amin amax bmin bmax == iou_with_anchors bmin bmax amin amax /\
  iou_with_anchors amin amax amin amax == 1.
Proof.
  intros Ha Hb.
  assert (Hs : iou_with_anchors amin amax bmin bmax == iou_with_anchors bmin bmax amin amax).
  { unfold iou_with_anchors. rewrite (Q.max_comm bmin amin), (Q.min_comm bmax amax).
    setoid_replace (bmax - bmin + (amax - amin) - Qmax (Qmin amax bmax - Qmax amin bmin) 0)
      with (amax - amin + (bmax - bmin) - Qmax (Qmin amax bmax - Qmax amin bmin) 0) by ring.
    reflexivity. }
  split; [|split; [exact Hs|]].
  2:{ unfold iou_with_anchors. rewrite Q.max_id, Q.min_id.
      rewrite (Q.max_l (amax - amin) 0) by qlra.
      setoid_replace (amax - amin + (amax - amin) - (amax - amin)) with (amax - amin) by ring.
      unfold Qdiv. apply Qmult_inv_r. intro Hz. qlra. }
  unfold iou_with_anchors.
  assert (Hi0 : 0 <= Qmax (Qmin amax bmax - Qmax amin bmin) 0) by (apply Q.le_max_r).
  assert (Hia : Qmax (Qmin amax bmax - Qmax amin bmin) 0 <= amax - amin) by qminmax_lra.
  assert (Hib : Qmax (Qmin amax bmax - Qmax amin bmin) 0 <= bmax - bmin) by qminmax_lra.
  set (I := Qmax (Qmin amax bmax - Qmax amin bmin) 0) in *.
  assert (HU : 0 < amax - amin + (bmax - bmin) - I) by qlra.
  split.
  - apply Qle_shift_div_l; [exact HU|]. rewrite Qmult_0_l. exact Hi0.
  - apply Qle_shift_div_r; [exact HU|]. qlra.
Qed.

Lemma iou_with_anchors_range_witness :
  (0 < 2 /\ 1 <= 3) /\
  0 <= iou_with_anchors 0 2 1 3 <= 1 /\
  iou_with_anchors 0 2 1 3 == iou_with_anchors 1 3 0 2 /\
  iou_with_anchors 0 2 0 2 == 1.
Proof.
  split; [split; [reflexivity | discriminate]|].
  apply iou_with_anchors_range; [reflexivity | discriminate].
Defined.

End OverlapExtra.

Module TargetsExtra.
Import Assigner AssignerFacts Scenarios.

Lemma argmin_from_none i bi l :
  Forall (fun v => v = None) l -> argmin_from i None bi l = (None, bi).
Proof.
  revert i. induction l as [|v l IH]; intros i Hl; [reflexivity|].
  inversion Hl as [|? ? Hv Hr]; subst. simpl. apply IH. exact Hr.
Qed.

Lemma torch_min_none l :
  Forall (fun v => v = None) l -> torch_min l = (None, 0%nat).
Proof.
  destruct l as [|v l]; [reflexivity|]. intros Hl.
  inversion Hl as [|? ? Hv Hr]; subst. apply argmin_from_none. exact Hr.
Qed.

(** A point for which no ground-truth segment qualifies gets the background
    sentinels, but its regression target is not zero: it is the
    stride-normalised distance to the first segment ([min_len_inds] is 0 on
    an all-[inf] row), which can be negative.  [losses] only reads it through
    [pos_mask]. *)
Theorem background_point_reg_target cfg gts lv ln p :
  Forall (fun g => masked_len cfg p g = None) gts ->
  assign_point cfg gts lv ln p =
    (num_classes_verb cfg, num_classes_noun cfg,
     ((pt_t p - fst (nth 0 gts (0, 0))) / pt_stride p,
      (snd (nth 0 gts (0, 0)) - pt_t p) / pt_stride p)).
Proof.
  intros H. unfold assign_point.
  rewrite torch_min_none by (rewrite Forall_map; exact H).
  destruct (nth 0 gts (0, 0)). reflexivity.
Qed.

Lemma background_point_reg_target_witness :
  Forall (fun g => masked_len cfg_none (mkPoint 0 0 8 1) g = None) [(2, 4)] /\
  assign_point cfg_none [(2, 4)] [1%Z] [1%Z] (mkPoint 0 0 8 1) =
    (num_classes_verb cfg_none, num_classes_noun cfg_none,
     ((pt_t (mkPoint 0 0 8 1) - fst (nth 0 [(2, 4)] (0, 0))) / pt_stride (mkPoint 0 0 8 1),
      (snd (nth 0 [(2, 4)] (0, 0)) - pt_t (mkPoint 0 0 8 1)) / pt_stride (mkPoint 0 0 8 1))).
Proof.
  split; [repeat constructor|].
  apply background_point_reg_target. repeat constructor.
Defined.

Lemma level_labels_lengths cen gts n r :
  let '(a, s, e) := level_labels cen gts n r in
  length a = n /\ length s = n /\ length e = n.
Proof.
  unfold level_labels, anchors. cbv zeta. rewrite !length_map, length_seq. auto.
Qed.

Lemma boundary_labels_lengths cen gts :
  let '(a, s, e) := boundary_labels cen gts in
  length a = 4536%nat /\ length s = 4536%nat /\ length e = 4536%nat.
Proof.
  unfold boundary_labels.
  assert (Hgen : forall lv a s e,
    let '(a', s', e') := fold_left (fun '(a, s, e) '(n, r) =>
      let '(a', s', e') := level_labels cen gts n r in (a ++ a', s ++ s', e ++ e'))
      lv (a, s, e) in
    length a' = (length a + list_sum (map fst lv))%nat /\
    length s' = (length s + list_sum (map fst lv))%nat /\
    length e' = (length e + list_sum (map fst lv))%nat).
  { induction lv as [|[n r] lv IH]; intros a s e; cbn [fold_left map list_sum fst].
    - simpl. lia.
    - change (list_sum (n :: map fst lv)) with (n + list_sum (map fst lv))%nat.
      pose proof (level_labels_lengths cen gts n r) as Hl.
      destruct (level_labels cen gts n r) as [[a' s'] e'].
      destruct Hl as (H1 & H2 & H3).
      specialize (IH (a ++ a') (s ++ s') (e ++ e')).
      match goal with |- context [fold_left ?f lv ?i] => destruct (fold_left f lv i) as [[x y] z] end.
      rewrite !length_app in IH. lia. }
  specialize (Hgen (combine num_levels level_ratio) [] [] []).
  match goal with |- context [fold_left ?f ?l ?i] => destruct (fold_left f l i) as [[x y] z] end.
  replace (list_sum (map fst (combine num_levels level_ratio))) with 4536%nat in Hgen
    by reflexivity.
  simpl in Hgen. exact Hgen.
Qed.

Lemma lpsv_shape cen cfg cp gs lv ln :
  gs <> [] ->
  exists cv cn reg st en act,
    label_points_single_video cen cfg cp gs lv ln = LP6 cv cn reg st en act /\
    length cv = length cp /\ length cn = length cp /\ length reg = length cp /\
    length st = 4536%nat /\ length en = 4536%nat /\ length act = 4536%nat.
Proof.
  intros Hg. unfold label_points_single_video. destruct gs as [|g gs]; [congruence|].
  unfold assign. pose proof (boundary_labels_lengths cen (g :: gs)) as Hb.
  destruct (boundary_labels cen (g :: gs)) as [[a s] e].
  destruct Hb as (H1 & H2 & H3).
  do 6 eexists. split; [reflexivity|]. rewrite !length_map. repeat split; assumption.
Qed.

Section LabelPointsFold.
Variable cen : Q -> Q.
Variable cfg : Cfg.
Variable cp : list Point.

Let step := fun (acc : PyError + Targets) (v : Video) =>
  let '(gs, lv, ln) := v in
  match acc with
  | inl err => inl err
  | inr (a, b, c, d, e, f) =>
      match label_points_single_video cen cfg cp gs lv ln with
      | LP3 _ _ _ => inl ValueError_unpack
      | LP6 cv cn reg st en act =>
          inr (a ++ [cv], b ++ [cn], c ++ [reg], d ++ [st], e ++ [en], f ++ [act])
      end
  end.

Lemma label_points_fold_ok vs a b c d e f :
  Forall (fun v : Video => fst (fst v) <> []) vs ->
  Forall (fun l => length l = length cp) a ->
  Forall (fun l => length l = length cp) b ->
  Forall (fun l => length l = length cp) c ->
  Forall (fun l => length l = 4536%nat) d ->
  Forall (fun l => length l = 4536%nat) e ->
  Forall (fun l => length l = 4536%nat) f ->
  exists a' b' c' d' e' f',
    fold_left step vs (inr (a, b, c, d, e, f)) = inr (a', b', c', d', e', f') /\
    length a' = (length a + length vs)%nat /\ length b' = (length b + length vs)%nat /\
    length c' = (length c + length vs)%nat /\ length d' = (length d + length vs)%nat /\
    length e' = (length e + length vs)%nat /\ length f' = (length f + length vs)%nat /\
    Forall (fun l => length l = length cp) a' /\
    Forall (fun l => length l = length cp) b' /\
    Forall (fun l => length l = length cp) c' /\
    Forall (fun l => length l = 4536%nat) d' /\
    Forall (fun l => length l = 4536%nat) e' /\
    Forall (fun l => length l = 4536%nat) f'.
Proof.
  revert a b c d e f.
  induction vs as [|[[gs lv] ln] vs IH]; intros a b c d e f Hv Ha Hb Hc Hd He Hf.
  - do 6 eexists. split; [reflexivity|]. rewrite !Nat.add_0_r. repeat split; assumption.
  - inversion Hv as [|? ? Hg Hvs]; subst. simpl in Hg.
    destruct (lpsv_shape cen cfg cp gs lv ln Hg)
      as (cv & cn & reg & st & en & act & Heq & H1 & H2 & H3 & H4 & H5 & H6).
    cbn [fold_left]. unfold step at 2. rewrite Heq.
    destruct (IH (a ++ [cv]) (b ++ [cn]) (c ++ [reg]) (d ++ [st]) (e ++ [en]) (f ++ [act]))
      as (a' & b' & c' & d' & e' & f' & Hr & L1 & L2 & L3 & L4 & L5 & L6 & F1 & F2 & F3 & F4 & F5 & F6);
      try (apply Forall_app; split; [assumption | repeat constructor; assumption]); try assumption.
    exists a', b', c', d', e', f'. rewrite !length_app in *. cbn [length] in *.
    split; [exact Hr|]. repeat split; try assumption; lia.
Qed.

Lemma label_points_fold_inl vs err :
  fold_left step vs (inl err) = inl err.
Proof. induction vs as [|[[gs lv] ln] vs IH]; [reflexivity|]. exact IH. Qed.

Lemma label_points_fold_bad vs tg :
  Exists (fun v : Video => fst (fst v) = []) vs ->
  fold_left step vs (inr tg) = inl ValueError_unpack.
Proof.
  revert tg. induction vs as [|[[gs lv] ln] vs IH]; intros tg Hv; [inversion Hv|].
  cbn [fold_left]. unfold step at 2.
  destruct tg as [[[[[a b] c] d] e] f].
  inversion Hv as [? ? Hg | ? ? Hvs]; subst.
  - simpl in Hg. subst gs. apply label_points_fold_inl.
  - destruct (label_points_single_video cen cfg cp gs lv ln).
    + apply label_points_fold_inl.
    + apply IH. exact Hvs.
Qed.

End LabelPointsFold.

(** [label_points] fails exactly when some video of the batch has no
    ground-truth segment, and then with [ValueError].  Otherwise it returns
    one entry per video in each of its six lists: the verb, noun and
    regression targets have one value per point of the concatenated levels,
    and the start, end and actionness labels have 4536 values (the sum of the
    six fixed level sizes). *)
Theorem label_points_result cen cfg points videos :
  (label_points cen cfg points videos = inl ValueError_unpack <->
   Exists (fun v : Video => fst (fst v) = []) videos) /\
  (Forall (fun v : Video => fst (fst v) <> []) videos ->
   exists cv cn reg st en act,
     label_points cen cfg points videos = inr (cv, cn, reg, st, en, act) /\
     length cv = length videos /\ length cn = length videos /\
     length reg = length videos /\ length st = length videos /\
     length en = length videos /\ length act = length videos /\
     Forall (fun l => length l = length (concat points)) cv /\
     Forall (fun l => length l = length (concat points)) cn /\
     Forall (fun l => length l = length (concat points)) reg /\
     Forall (fun l => length l = 4536%nat) st /\
     Forall (fun l => length l = 4536%nat) en /\
     Forall (fun l => length l = 4536%nat) act).
Proof.
  assert (Hok : Forall (fun v : Video => fst (fst v) <> []) videos ->
   exists cv cn reg st en act,
     label_points cen cfg points videos = inr (cv, cn, reg, st, en, act) /\
     length cv = length videos /\ length cn = length videos /\
     length reg = length videos /\ length st = length videos /\
     length en = length videos /\ length act = length videos /\
     Forall (fun l => length l = length (concat points)) cv /\
     Forall (fun l => length l = length (concat points)) cn /\
     Forall (fun l => length l = length (concat points)) reg /\
     Forall (fun l => length l = 4536%nat) st /\
     Forall (fun l => length l = 4536%nat) en /\
     Forall (fun l => length l = 4536%nat) act).
  { intros Hv.
    destruct (label_points_fold_ok cen cfg (concat points) videos [] [] [] [] [] [] Hv)
      as (a & b & c & d & e & f & Hr & R); try constructor.
    exists a, b, c, d, e, f. split; [exact Hr | exact R]. }
  split; [|exact Hok].
  split.
  - intros Hl. destruct (Exists_dec (fun v : Video => fst (fst v) = []) videos) as [Hx|Hx].
    + intros v. destruct (fst (fst v)); [left; reflexivity | right; discriminate].
    + exact Hx.
    + exfalso. apply Forall_Exists_neg in Hx.
      destruct (Hok Hx) as (cv & cn & reg & st & en & act & Hr & _). congruence.
  - intros Hx. apply label_points_fold_bad. exact Hx.
Qed.

Lemma label_points_result_witness :
  Forall (fun v : Video => fst (fst v) <> []) [([(2, 4)], [1%Z], [1%Z])] /\
  exists cv cn reg st en act,
    label_points (fun _ => 1) cfg_none [six_points] [([(2, 4)], [1%Z], [1%Z])]
      = inr (cv, cn, reg, st, en, act) /\
    length cv = length [([(2, 4)], [1%Z], [1%Z]) : Video] /\
    length cn = length [([(2, 4)], [1%Z], [1%Z]) : Video] /\
    length reg = length [([(2, 4)], [1%Z], [1%Z]) : Video] /\
    length st = length [([(2, 4)], [1%Z], [1%Z]) : Video] /\
    length en = length [([(2, 4)], [1%Z], [1%Z]) : Video] /\
    length act = length [([(2, 4)], [1%Z], [1%Z]) : Video] /\
    Forall (fun l => length l = length (concat [six_points])) cv /\
    Forall (fun l => length l = length (concat [six_points])) cn /\
    Forall (fun l => length l = length (concat [six_points])) reg /\
    Forall (fun l => length l = 4536%nat) st /\
    Forall (fun l => length l = 4536%nat) en /\
    Forall (fun l => length l = 4536%nat) act.
Proof.
  assert (H : Forall (fun v : Video => fst (fst v) <> []) [([(2, 4)], [1%Z], [1%Z])])
    by (repeat constructor; discriminate).
  split; [exact H|].
  apply (proj2 (label_points_result (fun _ => 1) cfg_none [six_points]
                  [([(2, 4)], [1%Z], [1%Z])])). exact H.
Defined.

End TargetsExtra.

(** * Facts about batching the inputs *)

Module PreprocessExtra.
Import Preprocess.

Lemma fold_max_spec r x :
  (x <= fold_left Nat.max r x)%nat /\
  Forall (fun y => (y <= fold_left Nat.max r x)%nat) r /\
  (fold_left Nat.max r x = x \/ In (fold_left Nat.max r x) r).
Proof.
  revert x. induction r as [|y r IH]; intros x; simpl.
  - split; [lia|]. split; [constructor|]. left; reflexivity.
  - destruct (IH (Nat.max x y)) as (H1 & H2 & H3). split; [lia|]. split.
    + constructor; [lia | exact H2].
    + destruct H3 as [H3|H3]; [|right; right; exact H3].
      rewrite H3. destruct (Nat.max_spec x y) as [[_ ->]|[_ ->]]; [right; left | left]; reflexivity.
Qed.

Lemma list_max_spec l m :
  list_max l = Some m -> In m l /\ Forall (fun y => (y <= m)%nat) l.
Proof.
  destruct l as [|x r]; [discriminate|]. simpl. intros H. injection H as <-.
  destruct (fold_max_spec r x) as (H1 & H2 & H3). split.
  - destruct H3 as [H3|H3]; [left; symmetry; exact H3 | right; exact H3].
  - constructor; [exact H1 | exact H2].
Qed.

Lemma map_seq_const (f : nat -> bool) b n a :
  (forall t, (a <= t < a + n)%nat -> f t = b) -> map f (seq a n) = repeat b n.
Proof.
  revert a. induction n as [|n IH]; intros a H; [reflexivity|]. simpl.
  rewrite (H a) by lia. f_equal. apply IH. intros t Ht. apply H. lia.
Qed.

Lemma mask_row l L :
  (l <= L)%nat -> map (fun t => Nat.ltb t l) (seq 0 L) = repeat true l ++ repeat false (L - l).
Proof.
  intros H. replace (seq 0 L) with (seq 0 l ++ seq l (L - l))
    by (rewrite <- seq_app; f_equal; lia).
  rewrite map_app. f_equal; apply map_seq_const; intros t Ht.
  - apply Nat.ltb_lt. lia.
  - apply Nat.ltb_ge. lia.
Qed.

Lemma pad_to_spec {A} (pv : A) L f :
  (length f <= L)%nat ->
  length (pad_to pv L f) = L /\ firstn (length f) (pad_to pv L f) = f /\
  skipn (length f) (pad_to pv L f) = repeat pv (L - length f).
Proof.
  intros H. unfold pad_to. rewrite length_app, repeat_length. split; [lia|]. split.
  - rewrite firstn_app, Nat.sub_diag, firstn_O, app_nil_r. apply firstn_all.
  - rewrite skipn_app, skipn_all, Nat.sub_diag, skipn_O. reflexivity.
Qed.

Lemma batch_rows {A} (pv : A) L feats :
  Forall (fun f => (length f <= L)%nat) feats ->
  Forall2 (fun f row => length row = L /\ firstn (length f) row = f /\
                        skipn (length f) row = repeat pv (L - length f))
          feats (map (pad_to pv L) feats) /\
  Forall2 (fun f m => m = repeat true (length f) ++ repeat false (L - length f))
          feats (masks_of L (map (@length A) feats)).
Proof.
  induction feats as [|f feats IH]; intros H; [split; constructor|].
  inversion H as [|? ? Hf Hr]; subst. destruct (IH Hr) as [I1 I2]. split.
  - constructor; [apply pad_to_spec; exact Hf | exact I1].
  - constructor; [apply mask_row; exact Hf | exact I2].
Qed.

Lemma round_up_spec m s :
  (0 < s)%nat ->
  ((m + (s - 1)) / s * s) mod s = 0%nat /\
  (m <= (m + (s - 1)) / s * s < m + s)%nat.
Proof.
  intros Hs. split; [apply Nat.Div0.mod_mul|].
  pose proof (Nat.div_mod (m + (s - 1)) s ltac:(lia)) as Hd.
  pose proof (Nat.mod_upper_bound (m + (s - 1)) s ltac:(lia)) as Hm.
  rewrite (Nat.mul_comm _ s). lia.
Qed.

(** Batching ([preprocessing_visual] and [preprocessing_audio] have the same
    body): when it succeeds, all rows have one common length [L] that is at
    least every input length; each row starts with its input and is filled
    up with [padding_val], and each mask row is [True] on exactly the input's
    time steps.  In training [L] is [max_seq_len]; in inference (where
    [__init__] makes [max_div_factor] a positive divisor of [max_seq_len]) [L]
    is [max_seq_len] for an input that fits and otherwise the least multiple
    of [max_div_factor] not below the input length, so it is always a multiple
    of [max_div_factor]. *)
Theorem preprocessing_batches {A} (c : PCfg) (pv : A) feats inputs masks :
  (0 < max_div_factor c)%nat ->
  (max_seq_len c mod max_div_factor c = 0)%nat ->
  preprocessing c pv feats = inr (inputs, masks) ->
  exists L,
    Forall (fun f => (length f <= L)%nat) feats /\
    Forall2 (fun f row => length row = L /\ firstn (length f) row = f /\
                          skipn (length f) row = repeat pv (L - length f)) feats inputs /\
    Forall2 (fun f m => m = repeat true (length f) ++ repeat false (L - length f))
      feats masks /\
    (training c = true -> L = max_seq_len c) /\
    (training c = false ->
       length feats = 1%nat /\ (L mod max_div_factor c = 0)%nat /\
       Forall (fun f => (length f <= max_seq_len c)%nat -> L = max_seq_len c) feats /\
       Forall (fun f => (max_seq_len c < length f)%nat -> (L < length f + max_div_factor c)%nat)
         feats).
Proof.
  intros Hs Hdiv. unfold preprocessing.
  destruct (list_max (map (@length A) feats)) as [m|] eqn:Hm; [|discriminate].
  destruct (list_max_spec _ _ Hm) as [Hin Hall]. rewrite Forall_map in Hall.
  destruct (training c) eqn:Ht.
  - destruct (Nat.leb m (max_seq_len c)) eqn:Hle; [|discriminate].
    apply Nat.leb_le in Hle. intros H. injection H as <- <-.
    exists (max_seq_len c).
    assert (HL : Forall (fun f => (length f <= max_seq_len c)%nat) feats)
      by (eapply Forall_impl; [|exact Hall]; intros f Hf; simpl in Hf; lia).
    destruct (batch_rows pv _ feats HL) as [B1 B2].
    repeat split; auto; discriminate.
  - destruct feats as [|f [|f' feats]]; try discriminate.
    simpl in Hm. injection Hm as <-.
    set (L := if Nat.leb (length f) (max_seq_len c) then max_seq_len c
              else ((length f + (max_div_factor c - 1)) / max_div_factor c
                    * max_div_factor c)%nat).
    intros H. injection H as <- <-. exists L.
    pose proof (round_up_spec (length f) (max_div_factor c) Hs) as [R1 R2].
    assert (Hf : (length f <= L)%nat).
    { unfold L. destruct (Nat.leb (length f) (max_seq_len c)) eqn:E;
        [apply Nat.leb_le in E; lia | lia]. }
    destruct (batch_rows pv L [f] ltac:(repeat constructor; exact Hf)) as [B1 B2].
    split; [repeat constructor; exact Hf|]. split; [exact B1|]. split; [exact B2|].
    split; [discriminate|]. intros _. split; [reflexivity|].
    unfold L. destruct (Nat.leb (length f) (max_seq_len c)) eqn:E.
    + apply Nat.leb_le in E. split; [exact Hdiv|].
      split; constructor; auto; intros; lia.
    + apply Nat.leb_gt in E. split; [exact R1|].
      split; constructor; auto; intros; lia.
Qed.

Lemma preprocessing_train_ok {A} (c : PCfg) (pv : A) feats :
  training c = true -> feats <> [] ->
  Forall (fun f => (length f <= max_seq_len c)%nat) feats ->
  preprocessing c pv feats =
    inr (map (pad_to pv (max_seq_len c)) feats,
         masks_of (max_seq_len c) (map (@length A) feats)).
Proof.
  intros Ht Hne Hall. unfold preprocessing. rewrite Ht.
  destruct (list_max (map (@length A) feats)) as [m|] eqn:Hm.
  - destruct (list_max_spec _ _ Hm) as [Hin _]. apply in_map_iff in Hin.
    destruct Hin as (f & <- & Hf). rewrite Forall_forall in Hall.
    rewrite (proj2 (Nat.leb_le _ _) (Hall f Hf)). reflexivity.
  - destruct feats; [congruence | discriminate].
Qed.

Lemma preprocessing_infer_one {A} (c : PCfg) (pv : A) f :
  training c = false -> exists r, preprocessing c pv [f] = inr r.
Proof. intros Ht. unfold preprocessing. simpl. rewrite Ht. eexists. reflexivity. Qed.

(** The failures of batching: an empty batch fails on the [max] of no
    length; in training the assertion fails exactly when some input is longer
    than [max_seq_len] (and batching succeeds otherwise); in inference a
    batch of two or more videos fails the batch-size assertion. *)
Theorem preprocessing_errors {A} (c : PCfg) (pv : A) feats :
  preprocessing c pv [] = inl RuntimeError_empty_max /\
  (training c = true -> feats <> [] ->
     (preprocessing c pv feats = inl AssertionError_max_seq_len <->
      Exists (fun f => (max_seq_len c < length f)%nat) feats) /\
     (Forall (fun f => (length f <= max_seq_len c)%nat) feats ->
      exists r, preprocessing c pv feats = inr r)) /\
  (training c = false -> (2 <= length feats)%nat ->
     preprocessing c pv feats = inl AssertionError_batch_size).
Proof.
  split; [reflexivity|]. split.
  - intros Ht Hne. split.
    + split.
      * intros He. destruct (Exists_dec (fun f => (max_seq_len c < length f)%nat) feats)
          as [Hx|Hx]; [intros f; apply lt_dec | exact Hx|].
        exfalso. apply Forall_Exists_neg in Hx.
        rewrite (preprocessing_train_ok c pv feats Ht Hne) in He
          by (eapply Forall_impl; [|exact Hx]; intros f Hf; simpl in Hf; lia).
        discriminate.
      * intros Hx. unfold preprocessing. rewrite Ht.
        destruct (list_max (map (@length A) feats)) as [m|] eqn:Hm.
        -- destruct (list_max_spec _ _ Hm) as [_ Hall]. rewrite Forall_map in Hall.
           apply Exists_exists in Hx. destruct Hx as (f & Hf & Hlt).
           rewrite Forall_forall in Hall. specialize (Hall f Hf). simpl in Hall.
           rewrite (proj2 (Nat.leb_gt _ _)) by lia. reflexivity.
        -- destruct feats; [congruence | discriminate].
    + intros Hall. eexists. apply preprocessing_train_ok; assumption.
  - intros Ht Hl. unfold preprocessing. rewrite Ht.
    destruct feats as [|f [|f' feats]]; simpl in Hl; try lia. reflexivity.
Qed.

(** The start of [forward]: in training a batch of one video (that passes
    batching) fails with [IndexError] on [video_list[1]], and a batch of two or
    more videos within [max_seq_len] records the first two video ids; in
    inference exactly the batches of one video pass. *)
Theorem forward_prelude_batch {A} (c : PCfg) (pv : A) videos :
  (training c = true -> length videos = 1%nat ->
     Forall (fun v => (length (feats_v v) <= max_seq_len c)%nat /\
                      (length (feats_a v) <= max_seq_len c)%nat) videos ->
     forward_prelude c pv videos = inl IndexError_video_list) /\
  (training c = true ->
     Forall (fun v => (length (feats_v v) <= max_seq_len c)%nat /\
                      (length (feats_a v) <= max_seq_len c)%nat) videos ->
     forall v0 v1 rest, videos = v0 :: v1 :: rest ->
     exists iv mv ia ma,
       forward_prelude c pv videos = inr (iv, mv, ia, ma, [video_id v0; video_id v1])) /\
  (training c = false -> (2 <= length videos)%nat ->
     forward_prelude c pv videos = inl AssertionError_batch_size) /\
  (training c = false -> length videos = 1%nat ->
     exists iv mv ia ma, forward_prelude c pv videos = inr (iv, mv, ia, ma, [])).
Proof.
  assert (Htr : training c = true -> videos <> [] ->
     Forall (fun v => (length (feats_v v) <= max_seq_len c)%nat /\
                      (length (feats_a v) <= max_seq_len c)%nat) videos ->
     forward_prelude c pv videos =
       if training c then
         match videos with
         | v0 :: v1 :: _ => inr (map (pad_to pv (max_seq_len c)) (map feats_v videos),
                                 masks_of (max_seq_len c) (map (@length A) (map feats_v videos)),
                                 map (pad_to pv (max_seq_len c)) (map feats_a videos),
                                 masks_of (max_seq_len c) (map (@length A) (map feats_a videos)),
                                 [video_id v0; video_id v1])
         | _ => inl IndexError_video_list
         end
       else inl IndexError_video_list).
  { intros Ht Hne Hall. unfold forward_prelude.
    assert (Hm : forall g : PVideo A -> list A, map g videos <> []).
    { intros g. destruct videos; [congruence | discriminate]. }
    assert (Hv : Forall (fun f => (length f <= max_seq_len c)%nat) (map feats_v videos)).
    { rewrite Forall_map. eapply Forall_impl; [|exact Hall]. intros v [H1 _]. exact H1. }
    assert (Ha : Forall (fun f => (length f <= max_seq_len c)%nat) (map feats_a videos)).
    { rewrite Forall_map. eapply Forall_impl; [|exact Hall]. intros v [_ H2]. exact H2. }
    rewrite (preprocessing_train_ok c pv (map feats_v videos) Ht (Hm _) Hv).
    rewrite (preprocessing_train_ok c pv (map feats_a videos) Ht (Hm _) Ha).
    rewrite Ht. reflexivity. }
  split; [|split; [|split]].
  - intros Ht Hl Hall. rewrite Htr by (auto; destruct videos; discriminate).
    rewrite Ht. destruct videos as [|v0 [|v1 r]]; simpl in Hl; try lia. reflexivity.
  - intros Ht Hall v0 v1 rest ->. rewrite Htr by (auto; discriminate). rewrite Ht.
    do 4 eexists. reflexivity.
  - intros Ht Hl. unfold forward_prelude.
    rewrite (proj2 (proj2 (preprocessing_errors c pv (map feats_v videos))))
      by (auto; rewrite length_map; exact Hl).
    reflexivity.
  - intros Ht Hl. destruct videos as [|v [|v' r]]; simpl in Hl; try lia.
    unfold forward_prelude. simpl.
    destruct (preprocessing_infer_one c pv (feats_v v) Ht) as [[iv mv] ->].
    destruct (preprocessing_infer_one c pv (feats_a v) Ht) as [[ia ma] ->].
    rewrite Ht. do 4 eexists. reflexivity.
Qed.

Lemma preprocessing_batches_witness :
  ((0 < 2)%nat /\ (4 mod 2 = 0)%nat /\
   preprocessing (mkPCfg false 4 2) 0%nat [[1; 2; 3; 4; 5]%nat] =
     inr ([[1; 2; 3; 4; 5; 0]%nat], [[true; true; true; true; true; false]])) /\
  exists L,
    Forall (fun f => (length f <= L)%nat) [[1; 2; 3; 4; 5]%nat] /\
    Forall2 (fun f row => length row = L /\ firstn (length f) row = f /\
                          skipn (length f) row = repeat 0%nat (L - length f))
      [[1; 2; 3; 4; 5]%nat] [[1; 2; 3; 4; 5; 0]%nat] /\
    Forall2 (fun f m => m = repeat true (length f) ++ repeat false (L - length f))
      [[1; 2; 3; 4; 5]%nat] [[true; true; true; true; true; false]] /\
    (training (mkPCfg false 4 2) = true -> L = max_seq_len (mkPCfg false 4 2)) /\
    (training (mkPCfg false 4 2) = false ->
       length [[1; 2; 3; 4; 5]%nat] = 1%nat /\
       (L mod max_div_factor (mkPCfg false 4 2) = 0)%nat /\
       Forall (fun f => (length f <= max_seq_len (mkPCfg false 4 2))%nat ->
                        L = max_seq_len (mkPCfg false 4 2)) [[1; 2; 3; 4; 5]%nat] /\
       Forall (fun f => (max_seq_len (mkPCfg false 4 2) < length f)%nat ->
                        (L < length f + max_div_factor (mkPCfg false 4 2))%nat)
         [[1; 2; 3; 4; 5]%nat]).
Proof.
  assert (H : preprocessing (mkPCfg false 4 2) 0%nat [[1; 2; 3; 4; 5]%nat] =
     inr ([[1; 2; 3; 4; 5; 0]%nat], [[true; true; true; true; true; false]]))
    by reflexivity.
  split; [split; [lia | split; [reflexivity | exact H]]|].
  apply (preprocessing_batches (mkPCfg false 4 2) 0%nat _ _ _); [simpl; lia | reflexivity | exact H].
Defined.

Lemma preprocessing_errors_witness :
  (training (mkPCfg true 4 2) = true /\ [[1; 2; 3; 4; 5]%nat; [1]%nat] <> [] /\
   Exists (fun f => (max_seq_len (mkPCfg true 4 2) < length f)%nat)
     [[1; 2; 3; 4; 5]%nat; [1]%nat]) /\
  preprocessing (mkPCfg true 4 2) 0%nat [[1; 2; 3; 4; 5]%nat; [1]%nat] =
    inl AssertionError_max_seq_len.
Proof.
  assert (Hx : Exists (fun f => (max_seq_len (mkPCfg true 4 2) < length f)%nat)
                 [[1; 2; 3; 4; 5]%nat; [1]%nat]) by (left; simpl; lia).
  split; [split; [reflexivity | split; [discriminate | exact Hx]]|].
  apply (proj1 (proj2 (preprocessing_errors (mkPCfg true 4 2) 0%nat
                         [[1; 2; 3; 4; 5]%nat; [1]%nat])) eq_refl ltac:(discriminate)).
  exact Hx.
Defined.

Lemma forward_prelude_batch_witness :
  (training (mkPCfg true 4 2) = true /\
   length [mkPVideo 7 [1; 2]%nat [3]%nat] = 1%nat /\
   Forall (fun v => (length (feats_v v) <= max_seq_len (mkPCfg true 4 2))%nat /\
                    (length (feats_a v) <= max_seq_len (mkPCfg true 4 2))%nat)
     [mkPVideo 7 [1; 2]%nat [3]%nat]) /\
  forward_prelude (mkPCfg true 4 2) 0%nat [mkPVideo 7 [1; 2]%nat [3]%nat] =
    inl IndexError_video_list.
Proof.
  assert (Hf : Forall (fun v => (length (feats_v v) <= max_seq_len (mkPCfg true 4 2))%nat /\
                    (length (feats_a v) <= max_seq_len (mkPCfg true 4 2))%nat)
     [mkPVideo 7 [1; 2]%nat [3]%nat]) by (repeat constructor; simpl; lia).
  split; [split; [reflexivity | split; [reflexivity | exact Hf]]|].
  apply (proj1 (forward_prelude_batch (mkPCfg true 4 2) 0%nat
                  [mkPVideo 7 [1; 2]%nat [3]%nat]) eq_refl eq_refl Hf).
Defined.

End PreprocessExtra.

(** * Facts about the conversion to seconds *)

Module PostprocessExtra.
Import Postprocess AssignerFacts.

Lemma Qnot_le_bool a b : Qle_bool a b = false -> b < a.
Proof.
  intros E. apply Qnot_le_lt. intros Hc. apply Qle_bool_iff in Hc. congruence.
Qed.

Lemma to_seconds_clamp stride nframes fps vlen v :
  to_seconds stride nframes fps vlen v ==
    Qmin (Qmax ((v * stride + (1#2) * nframes) / fps) 0) vlen.
Proof.
  unfold to_seconds. set (w := (v * stride + (1#2) * nframes) / fps).
  destruct (Qle_bool w 0) eqn:E1.
  - apply Qle_bool_iff in E1. rewrite (Q.max_r w 0) by exact E1.
    destruct (Qle_bool vlen (w * 0)) eqn:E2.
    + apply Qle_bool_iff in E2. rewrite Qmult_0_r in *. rewrite Q.min_r by exact E2. ring.
    + apply Qnot_le_bool in E2. rewrite Qmult_0_r in *. rewrite Q.min_l by qlra. reflexivity.
  - apply Qnot_le_bool in E1. rewrite (Q.max_l w 0) by qlra.
    destruct (Qle_bool vlen w) eqn:E2.
    + apply Qle_bool_iff in E2. rewrite Q.min_r by exact E2. ring.
    + apply Qnot_le_bool in E2. rewrite Q.min_l by qlra. reflexivity.
Qed.

Lemma to_seconds_range stride nframes fps vlen v :
  0 <= vlen -> 0 <= to_seconds stride nframes fps vlen v <= vlen.
Proof.
  intros H. rewrite to_seconds_clamp. qminmax_lra.
Qed.

Lemma to_seconds_mono stride nframes fps vlen a b :
  0 < fps -> 0 <= stride -> a <= b ->
  to_seconds stride nframes fps vlen a <= to_seconds stride nframes fps vlen b.
Proof.
  intros Hf Hs Hab. rewrite !to_seconds_clamp.
  assert (Hw : (a * stride + (1#2) * nframes) / fps <= (b * stride + (1#2) * nframes) / fps).
  { unfold Qdiv. apply Qmult_le_compat_r; [|apply Qlt_le_weak, Qinv_lt_0_compat; exact Hf].
    assert (0 <= (b - a) * stride) by (apply Qmult_le_0_compat; qlra).
    qlra. }
  revert Hw. generalize ((a * stride + (1#2) * nframes) / fps).
  generalize ((b * stride + (1#2) * nframes) / fps). intros wb wa Hw. qminmax_lra.
Qed.

(** [postprocessing], whatever [batched_nms] returns: for a video with a
    positive frame rate and a non-negative duration, every boundary of every
    returned segment lies in [[0, duration]]; one result is returned per
    input video. *)
Theorem postprocessing_within_duration nms use_nms results :
  Forall (fun r => 0 < fps r /\ 0 <= duration r) results ->
  length (postprocessing nms use_nms results) = length results /\
  Forall2 (fun r out =>
      Forall (fun s => 0 <= fst s <= duration r /\ 0 <= snd s <= duration r)
        (fst (fst (fst out))))
    results (postprocessing nms use_nms results).
Proof.
  intros H. unfold postprocessing. rewrite length_map. split; [reflexivity|].
  induction results as [|r results IH]; [constructor|].
  inversion H as [|? ? [Hf Hd] Hr]; subst. simpl. constructor; [|exact (IH Hr)].
  unfold postprocess_video.
  destruct (if use_nms then nms (segments r) (scores r) (labels_verb r) (labels_noun r)
            else (segments r, scores r, labels_verb r, labels_noun r))
    as [[[segs sc] lv] ln].
  destruct segs as [|s0 segs]; [constructor|]. simpl.
  constructor; [destruct s0 as [a b]; simpl; split; apply to_seconds_range; exact Hd|].
  apply Forall_forall. intros s Hs. apply in_map_iff in Hs.
  destruct Hs as ([a b] & <- & _). simpl.
  split; apply to_seconds_range; exact Hd.
Qed.

(** Without NMS, [postprocessing] keeps the number and order of the
    segments, the scores and the labels of every video, and for a positive
    frame rate and a non-negative feature stride it keeps every segment's
    orientation ([start <= end]). *)
Theorem postprocessing_no_nms nms results :
  Forall2 (fun r out =>
      length (fst (fst (fst out))) = length (segments r) /\
      snd (fst (fst out)) = scores r /\
      snd (fst out) = labels_verb r /\ snd out = labels_noun r /\
      (0 < fps r -> 0 <= feat_stride r ->
       Forall2 (fun s s' => fst s <= snd s -> fst s' <= snd s')
         (segments r) (fst (fst (fst out)))))
    results (postprocessing nms false results).
Proof.
  induction results as [|r results IH]; [constructor|]. simpl. constructor; [|exact IH].
  unfold postprocess_video. simpl.
  destruct (segments r) as [|s0 segs] eqn:Hs.
  - repeat split; try reflexivity. intros. constructor.
  - cbn [fst snd]. rewrite length_map. repeat split; try reflexivity.
    intros Hf Hst. set (l := s0 :: segs). clearbody l. clear Hs.
    induction l as [|[a b] l IHl]; simpl; constructor; [|exact IHl].
    intros Hab. apply to_seconds_mono; assumption.
Qed.

Lemma postprocessing_within_duration_witness :
  Forall (fun r => 0 < fps r /\ 0 <= duration r)
    [mkVidResult 30 10 16 32 [(-1, 2); (5, 40)] [1#2; 1#4] [1%Z; 2%Z] [3%Z; 4%Z]] /\
  length (postprocessing (fun s c v n => (s, c, v, n)) true
    [mkVidResult 30 10 16 32 [(-1, 2); (5, 40)] [1#2; 1#4] [1%Z; 2%Z] [3%Z; 4%Z]]) =
  length [mkVidResult 30 10 16 32 [(-1, 2); (5, 40)] [1#2; 1#4] [1%Z; 2%Z] [3%Z; 4%Z]] /\
  Forall2 (fun r out =>
      Forall (fun s => 0 <= fst s <= duration r /\ 0 <= snd s <= duration r)
        (fst (fst (fst out))))
    [mkVidResult 30 10 16 32 [(-1, 2); (5, 40)] [1#2; 1#4] [1%Z; 2%Z] [3%Z; 4%Z]]
    (postprocessing (fun s c v n => (s, c, v, n)) true
      [mkVidResult 30 10 16 32 [(-1, 2); (5, 40)] [1#2; 1#4] [1%Z; 2%Z] [3%Z; 4%Z]]).
Proof.
  assert (H : Forall (fun r => 0 < fps r /\ 0 <= duration r)
    [mkVidResult 30 10 16 32 [(-1, 2); (5, 40)] [1#2; 1#4] [1%Z; 2%Z] [3%Z; 4%Z]])
    by (repeat constructor; simpl; discriminate).
  split; [exact H|]. apply postprocessing_within_duration. exact H.
Defined.

End PostprocessExtra.

(** * Facts about the candidate selection of one level *)

Module InferLevelExtra.
Import Assigner Decode InferLevel AssignerFacts DecodeClaims.

Lemma insert_desc_in x l y : In y (insert_desc x l) <-> y = x \/ In y l.
Proof.
  induction l as [|z l IH]; simpl; [intuition congruence|].
  destruct (Qltb (snd z) (snd x)); simpl; [intuition congruence|].
  rewrite IH. intuition congruence.
Qed.

Lemma sort_desc_in l y : In y (sort_desc l) <-> In y l.
Proof.
  induction l as [|x l IH]; simpl; [tauto|]. rewrite insert_desc_in, IH. intuition congruence.
Qed.

Lemma sort_desc_length l : length (sort_desc l) = length l.
Proof.
  induction l as [|x l IH]; [reflexivity|]. simpl. rewrite <- IH.
  generalize (sort_desc l). intros r. induction r as [|z r IHr]; [reflexivity|]. simpl.
  destruct (Qltb (snd z) (snd x)); simpl; [reflexivity|]. rewrite IHr. reflexivity.
Qed.

Lemma insert_desc_sorted x l :
  StronglySorted (fun a b : nat * Q => snd b <= snd a) l ->
  StronglySorted (fun a b : nat * Q => snd b <= snd a) (insert_desc x l).
Proof.
  induction l as [|z l IH]; intros H; simpl.
  - repeat constructor.
  - apply StronglySorted_inv in H as [Hl Hz].
    destruct (Qltb (snd z) (snd x)) eqn:E.
    + apply Qltb_true in E. constructor; [constructor; assumption|].
      constructor; [qlra|]. eapply Forall_impl; [|exact Hz]. intros a Ha. simpl in Ha. qlra.
    + assert (E' : snd x <= snd z).
      { apply Qnot_lt_le. intros Hc. apply Qltb_true in Hc. congruence. }
      constructor; [apply IH; exact Hl|].
      apply Forall_forall. intros a Ha. apply insert_desc_in in Ha as [->|Ha]; [exact E'|].
      rewrite Forall_forall in Hz. apply Hz. exact Ha.
Qed.

Lemma sort_desc_sorted l :
  StronglySorted (fun a b : nat * Q => snd b <= snd a) (sort_desc l).
Proof.
  induction l as [|x l IH]; simpl; [constructor|]. apply insert_desc_sorted. exact IH.
Qed.

Lemma in_firstn {A} n (l : list A) y : In y (firstn n l) -> In y l.
Proof.
  intros H. rewrite <- (firstn_skipn n l). apply in_or_app. left. exact H.
Qed.

Lemma ssorted_firstn {A} (R : A -> A -> Prop) n l :
  StronglySorted R l -> StronglySorted R (firstn n l).
Proof.
  revert l. induction n as [|n IH]; intros l H; [constructor|].
  destruct l as [|x l]; [constructor|]. apply StronglySorted_inv in H as [Hl Hx].
  simpl. constructor; [apply IH; exact Hl|].
  apply Forall_forall. intros y Hy. rewrite Forall_forall in Hx.
  apply Hx. eapply in_firstn. exact Hy.
Qed.

Lemma ssorted_map {A B} (R : A -> A -> Prop) (R' : B -> B -> Prop) (f : A -> B) l :
  (forall x y, R x y -> R' (f x) (f y)) ->
  StronglySorted R l -> StronglySorted R' (map f l).
Proof.
  intros Hf. induction l as [|x l IH]; intros H; simpl; [constructor|].
  apply StronglySorted_inv in H as [Hl Hx]. constructor; [apply IH; exact Hl|].
  rewrite Forall_map. eapply Forall_impl; [|exact Hx]. intros y Hy. apply Hf. exact Hy.
Qed.

Lemma ssorted_filter {A} (R : A -> A -> Prop) (f : A -> bool) l :
  StronglySorted R l -> StronglySorted R (filter f l).
Proof.
  induction l as [|x l IH]; intros H; simpl; [constructor|].
  apply StronglySorted_inv in H as [Hl Hx]. destruct (f x); [|apply IH; exact Hl].
  constructor; [apply IH; exact Hl|].
  apply Forall_forall. intros y Hy. apply filter_In in Hy as [Hy _].
  rewrite Forall_forall in Hx. apply Hx. exact Hy.
Qed.

Lemma length_filter_le {A} (f : A -> bool) l : (length (filter f l) <= length l)%nat.
Proof. induction l as [|x l IH]; simpl; [lia|]. destruct (f x); simpl; lia. Qed.

Lemma select_generic (P : Detection -> Prop) (keep : Detection -> bool) k
    (kept : list (nat * Q)) (g : nat * Q -> Detection) (th2 : Q) :
  Forall (fun x => th2 < snd x) kept ->
  (forall x, snd (fst (fst (g x))) = snd x) ->
  (forall d, keep d = true -> P d) ->
  (length (filter keep (map g (firstn k (sort_desc kept)))) <= k)%nat /\
  Forall (fun d => th2 < snd (fst (fst d)) /\ P d)
    (filter keep (map g (firstn k (sort_desc kept)))) /\
  StronglySorted (fun d1 d2 : Detection => snd (fst (fst d2)) <= snd (fst (fst d1)))
    (filter keep (map g (firstn k (sort_desc kept)))).
Proof.
  intros Hk Hg Hp. split; [|split].
  - eapply Nat.le_trans; [apply length_filter_le|].
    rewrite length_map, length_firstn. lia.
  - apply Forall_forall. intros d Hd. apply filter_In in Hd as [Hd Hkd].
    split; [|apply Hp; exact Hkd].
    apply in_map_iff in Hd as (x & <- & Hx). rewrite Hg.
    apply in_firstn, (proj1 (sort_desc_in _ _)) in Hx. rewrite Forall_forall in Hk. apply Hk. exact Hx.
  - apply ssorted_filter. eapply ssorted_map; [|apply ssorted_firstn, sort_desc_sorted].
    intros x y Hxy. rewrite !Hg. exact Hxy.
Qed.

Lemma kept_above (th2 : Q) (l : list (nat * Q)) :
  Forall (fun x => th2 < snd x) (filter (fun '(_, p) => Qltb th2 p) l).
Proof.
  apply Forall_forall. intros [i p] H. apply filter_In in H as [_ H].
  apply Qltb_true. exact H.
Qed.

(** The candidates one level contributes in [inference_single_video]: at most
    [test_pre_nms_topk] of them, each with a score above
    [test_pre_nms_thresh ** 2] and a segment longer than
    [test_duration_thresh], in order of non-increasing score. *)
Theorem inference_level_selection tc pts_i mask_i vs ns vl nl offsets_i :
  (length (inference_level tc pts_i mask_i vs ns vl nl offsets_i) <= pre_nms_topk tc)%nat /\
  Forall (fun d : Detection =>
      pre_nms_thresh tc * pre_nms_thresh tc < snd (fst (fst d)) /\
      duration_thresh tc < snd (fst (fst (fst d))) - fst (fst (fst (fst d))))
    (inference_level tc pts_i mask_i vs ns vl nl offsets_i) /\
  StronglySorted (fun d1 d2 : Detection => snd (fst (fst d2)) <= snd (fst (fst d1)))
    (inference_level tc pts_i mask_i vs ns vl nl offsets_i).
Proof.
  unfold inference_level. cbv zeta.
  match goal with |- context [filter ?keep (map ?g (firstn ?k (sort_desc ?kept)))] =>
    destruct (select_generic
      (fun d : Detection => duration_thresh tc < snd (fst (fst (fst d))) - fst (fst (fst (fst d))))
      keep k kept g (pre_nms_thresh tc * pre_nms_thresh tc)) as (H1 & H2 & H3) end.
  - apply kept_above.
  - intros [idx p]. destruct (decompose idx) as [[pt n] v]. reflexivity.
  - intros [[[[l r] p] a] b] H. apply Qltb_true. exact H.
  - split; [|split; assumption]. eapply Nat.le_trans; [exact H1|]. apply Nat.le_min_l.
Qed.

Lemma in_combine_seq (l : list Q) a i p :
  In (i, p) (combine (seq a (length l)) l) ->
  (a <= i < a + length l)%nat /\ p = nth (i - a) l 0.
Proof.
  revert a. induction l as [|x l IH]; intros a H; simpl in H; [contradiction|].
  destruct H as [H|H].
  - injection H as <- <-. rewrite Nat.sub_diag. simpl. split; [lia | reflexivity].
  - destruct (IH (S a) H) as [H1 H2]. simpl. split; [lia|].
    replace (i - a)%nat with (S (i - S a)) by lia. exact H2.
Qed.

Lemma length_concat_uniform {A} k (bs : list (list A)) :
  Forall (fun b => length b = k) bs -> length (concat bs) = (length bs * k)%nat.
Proof.
  induction bs as [|b bs IH]; intros H; [reflexivity|].
  apply Forall_cons_iff in H as [Hb Hbs]. simpl. rewrite length_app, Hb, (IH Hbs). lia.
Qed.

Lemma mask_rows_length {A} (zero : A) mul one k rows mask :
  length (mask_rows zero mul one k rows mask) = Nat.min (length rows) (length mask).
Proof. unfold mask_rows. rewrite length_map, length_combine. reflexivity. Qed.

Lemma mask_rows_rows {A} (zero : A) mul one k rows mask :
  Forall (fun r => (k <= length r)%nat) rows ->
  Forall (fun r => length r = k) (mask_rows zero mul one k rows mask).
Proof.
  intros H. unfold mask_rows. apply Forall_forall. intros r Hr.
  apply in_map_iff in Hr as ([row b] & <- & Hin).
  apply in_combine_l in Hin. rewrite Forall_forall in H. specialize (H row Hin).
  rewrite length_map, length_firstn. lia.
Qed.

Lemma mask_rows_nth_off k rows mask pt :
  length rows = length mask -> (pt < length mask)%nat -> nth pt mask false = false ->
  forall x, In x (nth pt (mask_rows 0 Qmult 1 k rows mask) []) -> x == 0.
Proof.
  intros H1 H2 Hb x Hx. unfold mask_rows in Hx.
  rewrite (nth_map_lt _ _ _ _ ([], false)) in Hx by (rewrite length_combine; lia).
  rewrite combine_nth in Hx by exact H1.
  rewrite Hb in Hx. apply in_map_iff in Hx as (s & <- & _). apply Qmult_0_r.
Qed.

Lemma outer_block_length ns vs : length (outer_block ns vs) = (length ns * length vs)%nat.
Proof.
  unfold outer_block. rewrite (length_concat_uniform (length vs)), length_map; [reflexivity|].
  apply Forall_forall. intros b Hb. apply in_map_iff in Hb as (n & <- & _). apply length_map.
Qed.

Lemma nth_all_zero (l : list Q) r :
  (forall x, In x l -> x == 0) -> nth r l 0 == 0.
Proof.
  intros H. destruct (Nat.lt_ge_cases r (length l)) as [Hr|Hr].
  - apply H. apply nth_In. exact Hr.
  - rewrite nth_overflow by exact Hr. reflexivity.
Qed.

Lemma flat_scores_zero_row N V idx :
  Forall (fun l => length l = noun_topk) N ->
  Forall (fun l => length l = verb_topk) V ->
  length N = length V ->
  (idx < length (flat_scores N V))%nat ->
  (idx / (verb_topk * noun_topk) < length N)%nat /\
  ((forall x, In x (nth (idx / (verb_topk * noun_topk)) N []) -> x == 0) ->
   nth idx (flat_scores N V) 0 == 0).
Proof.
  intros Hn Hv Hlen Hidx.
  assert (Hb : Forall (fun b => length b = (verb_topk * noun_topk)%nat)
                 (map (fun '(ns, vs) => outer_block ns vs) (combine N V))).
  { apply Forall_forall. intros b Hb.
    apply in_map_iff in Hb as ([ns vs] & <- & Hin).
    pose proof (in_combine_l _ _ _ _ Hin) as H1.
    pose proof (in_combine_r _ _ _ _ Hin) as H2.
    rewrite Forall_forall in Hn, Hv.
    rewrite outer_block_length, (Hn _ H1), (Hv _ H2). apply Nat.mul_comm. }
  assert (HL : length (flat_scores N V) = (length N * (verb_topk * noun_topk))%nat).
  { unfold flat_scores. rewrite (length_concat_uniform _ _ Hb), length_map, length_combine.
    rewrite Hlen, Nat.min_id. reflexivity. }
  assert (Hpt : (idx / (verb_topk * noun_topk) < length N)%nat).
  { apply Nat.Div0.div_lt_upper_bound. rewrite Nat.mul_comm, <- HL. exact Hidx. }
  split; [exact Hpt|]. intros Hz.
  unfold flat_scores. rewrite (nth_concat_uniform _ _ _ _ Hb)
    by (rewrite length_map, length_combine, <- Hlen, Nat.min_id, <- HL; exact Hidx).
  rewrite (nth_map_lt _ _ _ _ ([], [])) by (rewrite length_combine; lia).
  rewrite combine_nth by exact Hlen.
  apply nth_all_zero. intros x Hx. unfold outer_block in Hx.
  apply in_concat in Hx as (row & Hrow & Hx).
  apply in_map_iff in Hrow as (n & <- & Hn').
  apply in_map_iff in Hx as (v & <- & _).
  rewrite (Hz n Hn'). apply Qmult_0_l.
Qed.

(** Every candidate of a level comes from a point inside the level's mask:
    the top-k scores of a masked-out point are multiplied by 0, so all its
    verb-noun products are 0 and never pass [pred_prob > thresh ** 2].  The
    candidate's segment is [t - off_left * stride, t + off_right * stride]
    for that point, and it contains the point's time when the offsets and the
    stride are non-negative (the regression head applies a ReLU).  The
    hypotheses are the tensor shapes: at least [verb_topk] sorted verb scores
    and [noun_topk] sorted noun scores per point, and one row per mask
    entry. *)
Theorem inference_level_valid_points tc pts_i mask_i vs ns vl nl offsets_i :
  Forall (fun r => (verb_topk <= length r)%nat) vs ->
  Forall (fun r => (noun_topk <= length r)%nat) ns ->
  length vs = length mask_i -> length ns = length mask_i ->
  Forall (fun d : Detection => exists pt,
      (pt < length mask_i)%nat /\ nth pt mask_i false = true /\
      fst (fst (fst d)) =
        (pt_t (nth pt pts_i (mkPoint 0 0 0 0))
           - fst (nth pt offsets_i (0, 0)) * pt_stride (nth pt pts_i (mkPoint 0 0 0 0)),
         pt_t (nth pt pts_i (mkPoint 0 0 0 0))
           + snd (nth pt offsets_i (0, 0)) * pt_stride (nth pt pts_i (mkPoint 0 0 0 0))) /\
      (0 <= fst (nth pt offsets_i (0, 0)) -> 0 <= snd (nth pt offsets_i (0, 0)) ->
       0 <= pt_stride (nth pt pts_i (mkPoint 0 0 0 0)) ->
       fst (fst (fst (fst d))) <= pt_t (nth pt pts_i (mkPoint 0 0 0 0)) <=
       snd (fst (fst (fst d)))))
    (inference_level tc pts_i mask_i vs ns vl nl offsets_i).
Proof.
  intros Hv Hn Hlv Hln. unfold inference_level. cbv zeta.
  set (N := mask_rows 0 Qmult 1 noun_topk ns mask_i).
  set (V := mask_rows 0 Qmult 1 verb_topk vs mask_i).
  assert (HN : Forall (fun l => length l = noun_topk) N) by (apply mask_rows_rows; exact Hn).
  assert (HV : Forall (fun l => length l = verb_topk) V) by (apply mask_rows_rows; exact Hv).
  assert (HlN : length N = length mask_i)
    by (unfold N; rewrite mask_rows_length, Hln; apply Nat.min_id).
  assert (HlV : length V = length mask_i)
    by (unfold V; rewrite mask_rows_length, Hlv; apply Nat.min_id).
  apply Forall_forall. intros d Hd. apply filter_In in Hd as [Hd _].
  apply in_map_iff in Hd as ([idx p] & <- & Hx).
  apply in_firstn, (proj1 (sort_desc_in _ _)) in Hx.
  apply filter_In in Hx as [Hx Hth]. apply Qltb_true in Hth.
  apply in_combine_seq in Hx as [Hi Hp]. rewrite Nat.sub_0_r in Hp.
  destruct (flat_scores_zero_row N V idx HN HV ltac:(lia) ltac:(lia)) as [Hpt Hz].
  unfold decompose. cbv zeta.
  set (pt := (idx / (verb_topk * noun_topk))%nat) in *.
  exists pt. split; [lia|]. split.
  - destruct (nth pt mask_i false) eqn:Hb; [reflexivity|]. exfalso.
    assert (Hp0 : p == 0).
    { rewrite Hp. apply Hz. apply mask_rows_nth_off; [lia | lia | exact Hb]. }
    pose proof (GIoULossExtra.Qsq_nonneg (pre_nms_thresh tc)). qlra.
  - split; [reflexivity|]. cbn [fst snd]. intros Ho1 Ho2 Hs.
    assert (0 <= fst (nth pt offsets_i (0, 0)) * pt_stride (nth pt pts_i (mkPoint 0 0 0 0)))
      by (apply Qmult_le_0_compat; assumption).
    assert (0 <= snd (nth pt offsets_i (0, 0)) * pt_stride (nth pt pts_i (mkPoint 0 0 0 0)))
      by (apply Qmult_le_0_compat; assumption).
    split; qlra.
Qed.

Lemma inference_level_valid_points_witness :
  (Forall (fun r => (verb_topk <= length r)%nat) [Scenarios.ramp 11; Scenarios.ramp 11] /\
   Forall (fun r => (noun_topk <= length r)%nat) [Scenarios.ramp 33; Scenarios.ramp 33] /\
   length [Scenarios.ramp 11; Scenarios.ramp 11] = length [true; false] /\
   length [Scenarios.ramp 33; Scenarios.ramp 33] = length [true; false]) /\
  Forall (fun d : Detection => exists pt,
      (pt < length [true; false])%nat /\ nth pt [true; false] false = true /\
      fst (fst (fst d)) =
        (pt_t (nth pt [mkPoint 0 0 4 1; mkPoint 1 0 4 1] (mkPoint 0 0 0 0))
           - fst (nth pt [(1, 2); (3, 4)] (0, 0))
             * pt_stride (nth pt [mkPoint 0 0 4 1; mkPoint 1 0 4 1] (mkPoint 0 0 0 0)),
         pt_t (nth pt [mkPoint 0 0 4 1; mkPoint 1 0 4 1] (mkPoint 0 0 0 0))
           + snd (nth pt [(1, 2); (3, 4)] (0, 0))
             * pt_stride (nth pt [mkPoint 0 0 4 1; mkPoint 1 0 4 1] (mkPoint 0 0 0 0))) /\
      (0 <= fst (nth pt [(1, 2); (3, 4)] (0, 0)) -> 0 <= snd (nth pt [(1, 2); (3, 4)] (0, 0)) ->
       0 <= pt_stride (nth pt [mkPoint 0 0 4 1; mkPoint 1 0 4 1] (mkPoint 0 0 0 0)) ->
       fst (fst (fst (fst d))) <= pt_t (nth pt [mkPoint 0 0 4 1; mkPoint 1 0 4 1] (mkPoint 0 0 0 0)) <=
       snd (fst (fst (fst d)))))
    (inference_level (mkTestCfg (1#2) 5 (1#10)) [mkPoint 0 0 4 1; mkPoint 1 0 4 1] [true; false]
       [Scenarios.ramp 11; Scenarios.ramp 11] [Scenarios.ramp 33; Scenarios.ramp 33]
       [map Z.of_nat (seq 0 11); map Z.of_nat (seq 0 11)]
       [map Z.of_nat (seq 0 33); map Z.of_nat (seq 0 33)] [(1, 2); (3, 4)]).
Proof.
  assert (H1 : Forall (fun r => (verb_topk <= length r)%nat) [Scenarios.ramp 11; Scenarios.ramp 11])
    by (repeat constructor).
  assert (H2 : Forall (fun r => (noun_topk <= length r)%nat) [Scenarios.ramp 33; Scenarios.ramp 33])
    by (repeat constructor).
  split; [split; [exact H1 | split; [exact H2 | split; reflexivity]]|].
  apply inference_level_valid_points; [exact H1 | exact H2 | reflexivity | reflexivity].
Defined.

End InferLevelExtra.

(** * Facts about the loss normalizer over training *)

Module LossExtra.
Import Losses LossScenarios.

Section LossExtra.

Variable Logit VisPred : Type.
Variable sigmoid_focal_loss : list Logit -> list (list Q) -> Q.
Variable ctr_giou_loss_1d :
  list VisPred -> list (Q * Q) -> list Q -> list Q -> list Q -> Q * Q.
Variable offsets_sum : list VisPred -> Q.

Lemma losses_fst h norm (st : Stream Logit VisPred) tg :
  fst (losses sigmoid_focal_loss ctr_giou_loss_1d offsets_sum h norm st tg)
    = ema_update norm (num_pos h tg (fpn_mask st)).
Proof.
  unfold losses. destruct (out_vis st) as [vs|]; [|reflexivity].
  destruct (Nat.eqb _ 0); [reflexivity|].
  destruct (ctr_giou_loss_1d _ _ _ _ _). reflexivity.
Qed.

Lemma forward_train_fst h norm (vis aud : Stream Logit VisPred) tg :
  let n1 := ema_update norm (num_pos h tg (fpn_mask vis)) in
  fst (forward_train sigmoid_focal_loss ctr_giou_loss_1d offsets_sum h norm vis aud tg) = n1 \/
  fst (forward_train sigmoid_focal_loss ctr_giou_loss_1d offsets_sum h norm vis aud tg)
    = ema_update n1 (num_pos h tg (fpn_mask aud)).
Proof.
  cbv zeta. unfold forward_train.
  pose proof (losses_fst h norm vis tg) as E1.
  destruct (losses sigmoid_focal_loss ctr_giou_loss_1d offsets_sum h norm vis tg)
    as [m1 [e|lv]]; simpl in E1; subst m1; [left; reflexivity|].
  pose proof (losses_fst h (ema_update norm (num_pos h tg (fpn_mask vis))) aud tg) as E2.
  destruct (losses sigmoid_focal_loss ctr_giou_loss_1d offsets_sum h
              (ema_update norm (num_pos h tg (fpn_mask vis))) aud tg)
    as [m2 [e|la]]; simpl in E2; subst m2; [right; reflexivity|].
  destruct lv, la; right; reflexivity.
Qed.

Lemma num_pos_le h tg valid : (num_pos h tg valid <= length valid)%nat.
Proof.
  unfold num_pos. eapply Nat.le_trans; [apply InferLevelExtra.length_filter_le|].
  unfold pos_mask. rewrite length_map, length_combine. lia.
Qed.

Lemma ema_update_bounds (B : Z) norm np :
  1 <= norm <= inject_Z B -> (Z.of_nat np <= B)%Z ->
  1 <= ema_update norm np <= inject_Z B.
Proof.
  intros [H1 H2] Hnp. unfold ema_update, loss_normalizer_momentum.
  assert (Hm1 : 1 <= inject_Z (Z.of_nat (Nat.max np 1))).
  { change 1 with (inject_Z 1). rewrite <- Zle_Qle. lia. }
  assert (Hm2 : inject_Z (Z.of_nat (Nat.max np 1)) <= inject_Z B).
  { rewrite <- Zle_Qle. assert (1 <= inject_Z B) as HB by qlra.
    change 1 with (inject_Z 1) in HB. rewrite <- Zle_Qle in HB. lia. }
  split; qlra.
Qed.

(** [self.loss_normalizer] over any sequence of training steps: if it starts
    in [[1, B]] and no stream's validity mask has more than [B] points, it
    stays in [[1, B]] after every step, whether the step returns losses or
    raises.  In particular the regression loss is never divided by a value
    below 1. *)
Theorem loss_normalizer_bounds h (B : Z) norm0
    (steps : list (Stream Logit VisPred * Stream Logit VisPred * Targets)) :
  1 <= norm0 <= inject_Z B ->
  Forall (fun s : Stream Logit VisPred * Stream Logit VisPred * Targets =>
    (Z.of_nat (length (fpn_mask (fst (fst s)))) <= B)%Z /\
    (Z.of_nat (length (fpn_mask (snd (fst s)))) <= B)%Z) steps ->
  1 <= fold_left (fun n s =>
         fst (forward_train sigmoid_focal_loss ctr_giou_loss_1d offsets_sum h n
                (fst (fst s)) (snd (fst s)) (snd s))) steps norm0 <= inject_Z B.
Proof.
  revert norm0. induction steps as [|[[vis aud] tg] steps IH]; intros norm0 H0 Hs; [exact H0|].
  apply Forall_cons_iff in Hs as [[Hv Ha] Hs]. simpl. apply IH; [|exact Hs].
  cbn [fst snd] in Hv, Ha.
  pose proof (num_pos_le h tg (fpn_mask vis)) as Pv.
  pose proof (num_pos_le h tg (fpn_mask aud)) as Pa.
  assert (H1 : 1 <= ema_update norm0 (num_pos h tg (fpn_mask vis)) <= inject_Z B)
    by (apply ema_update_bounds; [exact H0 | lia]).
  destruct (forward_train_fst h norm0 vis aud tg) as [E|E]; rewrite E; [exact H1|].
  apply ema_update_bounds; [exact H1 | lia].
Qed.

End LossExtra.

Lemma loss_normalizer_bounds_witness :
  (1 <= 1 <= inject_Z 1 /\
   Forall (fun s : Stream unit unit * Stream unit unit * Targets =>
     (Z.of_nat (length (fpn_mask (fst (fst s)))) <= 1)%Z /\
     (Z.of_nat (length (fpn_mask (snd (fst s)))) <= 1)%Z)
     [(unit_visual, unit_audio, fg_targets); (unit_visual, unit_audio, bg_targets)]) /\
  1 <= fold_left (fun n s =>
         fst (forward_train (fun _ _ => 0) (fun _ _ _ _ _ => (0, 0)) (fun _ => 0) unit_hyper n
                (fst (fst s)) (snd (fst s)) (snd s)))
         [(unit_visual, unit_audio, fg_targets); (unit_visual, unit_audio, bg_targets)] 1
       <= inject_Z 1.
Proof.
  assert (H : Forall (fun s : Stream unit unit * Stream unit unit * Targets =>
     (Z.of_nat (length (fpn_mask (fst (fst s)))) <= 1)%Z /\
     (Z.of_nat (length (fpn_mask (snd (fst s)))) <= 1)%Z)
     [(unit_visual, unit_audio, fg_targets); (unit_visual, unit_audio, bg_targets)])
    by (repeat constructor; discriminate).
  assert (H0 : 1 <= 1 <= inject_Z 1) by (split; discriminate).
  split; [split; [exact H0 | exact H]|].
  apply (loss_normalizer_bounds unit unit (fun _ _ => 0) (fun _ _ _ _ _ => (0, 0))
           (fun _ => 0) unit_hyper 1 1); [exact H0 | exact H].
Defined.

End LossExtra.

(** * The dense actionness labels *)

Module ActionLabelExtra.
Import Assigner AssignerFacts.

Lemma action_score_unit (cen : Q -> Q) xs ii :
  (forall d, unit_interval (cen d)) -> unit_interval (action_score cen xs ii).
Proof.
  intros Hc. unfold action_score.
  assert (H0 : unit_interval (1#10)) by (split; discriminate).
  revert H0. generalize (1#10). induction xs as [|[xmin xmax] xs IH]; intros acc Hacc; simpl;
    [exact Hacc|].
  apply IH. destruct (Qle_bool xmin ii && Qle_bool ii xmax); [apply Hc | exact Hacc].
Qed.

Lemma action_score_floor (cen : Q -> Q) xs ii :
  Forall (fun x => ~ (fst x <= ii <= snd x)) xs -> action_score cen xs ii = 1#10.
Proof.
  unfold action_score. generalize (1#10). intros acc H. revert acc.
  induction xs as [|[xmin xmax] xs IH]; intros acc; [reflexivity|].
  apply Forall_cons_iff in H as [Hx H]. simpl in Hx. simpl.
  destruct (Qle_bool xmin ii) eqn:E1; [destruct (Qle_bool ii xmax) eqn:E2|]; simpl;
    try (apply IH; exact H).
  exfalso. apply Hx. apply Qle_bool_iff in E1, E2. split; assumption.
Qed.

Lemma level_action_unit cen gts n r :
  (forall d, unit_interval (cen d)) ->
  Forall unit_interval (fst (fst (level_labels cen gts n r))).
Proof.
  intros Hc. unfold level_labels. cbv zeta. cbn [fst].
  apply Forall_forall. intros x Hx. apply in_map_iff in Hx as (a & <- & _).
  apply action_score_unit. exact Hc.
Qed.

(** The actionness labels of [label_points_single_video]: with the Gaussian
    centerness [exp(-d^2 / (2 sigma^2))] (any map into [[0, 1]]) every label
    over the six levels is in [[0, 1]]; and on a level with ratio [r], an
    anchor [i] that no segment [[start / r, end / r]] covers keeps the floor
    value 0.1. *)
Theorem action_labels_range cen gts :
  ((forall d, unit_interval (cen d)) ->
   Forall unit_interval (fst (fst (boundary_labels cen gts)))) /\
  (forall n r i, (i < n)%nat ->
   Forall (fun g : Segment =>
     ~ (fst g / inject_Z r <= inject_Z (Z.of_nat i) <= snd g / inject_Z r)) gts ->
   nth i (fst (fst (level_labels cen gts n r))) 0 = 1#10).
Proof.
  split.
  - intros Hc. unfold boundary_labels. generalize (combine num_levels level_ratio).
    assert (H : forall lv a s e, Forall unit_interval a ->
      Forall unit_interval (fst (fst (fold_left (fun '(a, s, e) '(n, r) =>
        let '(a', s', e') := level_labels cen gts n r in (a ++ a', s ++ s', e ++ e'))
        lv (a, s, e))))).
    { induction lv as [|[n r] lv IH]; intros a s e Ha; [exact Ha|]. cbn [fold_left].
      pose proof (level_action_unit cen gts n r Hc) as Hl.
      destruct (level_labels cen gts n r) as [[a' s'] e'].
      apply IH. apply Forall_app. split; assumption. }
    intros lv. apply H. constructor.
  - intros n r i Hi Hg. unfold level_labels, anchors. cbv zeta. cbn [fst].
    rewrite (DecodeClaims.nth_map_lt _ _ _ _ 0) by (rewrite length_map, length_seq; exact Hi).
    rewrite (DecodeClaims.nth_map_lt _ _ _ _ 0%nat) by (rewrite length_seq; exact Hi).
    rewrite seq_nth by exact Hi. simpl.
    apply action_score_floor. rewrite Forall_map. exact Hg.
Qed.

Lemma action_labels_range_witness :
  ((0 < 8)%nat /\
   Forall (fun g : Segment =>
     ~ (fst g / inject_Z 1 <= inject_Z (Z.of_nat 7) <= snd g / inject_Z 1)) [(2, 4)]) /\
  nth 7 (fst (fst (level_labels (fun _ => 1) [(2, 4)] 8 1))) 0 = 1#10.
Proof.
  assert (H : Forall (fun g : Segment =>
     ~ (fst g / inject_Z 1 <= inject_Z (Z.of_nat 7) <= snd g / inject_Z 1)) [(2, 4)]).
  { constructor; [|constructor]. simpl. intros [_ Hc]. vm_compute in Hc. apply Hc. reflexivity. }
  assert (Hl : (7 < 8)%nat) by lia.
  split; [split; [lia | exact H]|].
  apply (proj2 (action_labels_range (fun _ => 1) [(2, 4)]) 8%nat 1%Z 7%nat Hl H).
Defined.

End ActionLabelExtra.
